(** * A shallow embedding of [p.py]: the PACK push-request rewriter

    The Python module parses a Git push request, walks the objects of the
    PACK section, rewrites the text of commit objects, re-encodes every
    object and appends a fresh SHA-1 trailer.

    Conventions of the embedding
    - [bytes] values are lists of [Byte.byte]; Python [int]s are [N]
      (every integer the module manipulates is non-negative), except the
      result of [bytes.find], which is a [Z] because of its [-1].
    - [str] values are lists of code points.
    - an exception is a value of [exception]; a call that may raise returns
      a [result].
    - [io.BytesIO] objects opened for reading are records (buffer, position);
      the output buffer, which is only ever appended to, is its contents.
    - [hashlib.sha1] and the UTF-8 codec are modelled from their standards;
      [zlib] and [base64] are interfaces. *)

From Equations Require Import Equations.
From Stdlib Require Import String Ascii Strings.Byte.
From Stdlib Require Import List NArith ZArith Lia Bool Arith.
Import ListNotations.

Set Implicit Arguments.
Unset Strict Implicit.
Set Equations Transparent.

Local Open Scope N_scope.

(** ** Python values *)

Definition bytes := list byte.

(** A Python [str]: a sequence of code points. *)
Definition str := list N.

(** The code points of an ASCII literal of the source. *)
Definition str_of_string (s : string) : str :=
  map Byte.to_N (list_byte_of_string s).

(** A bytes literal [b'...'] of the source. *)
Definition bytes_of_string (s : string) : bytes := list_byte_of_string s.

Definition bytes_eqb (a b : bytes) : bool :=
  if list_eq_dec Byte.byte_eq_dec a b then true else false.

(** ** Exceptions *)

Inductive exception : Type :=
| ValueError (msg : string)
| TypeError           (* [ord] of a bytes object whose length is not 1 *)
| StructError         (* [struct.error] *)
| ZlibError           (* [zlib.error] *)
| UnicodeDecodeError
| UnicodeEncodeError
| BinasciiError.      (* [binascii.Error] *)

Inductive result (A : Type) : Type :=
| Ok (a : A)
| Raise (e : exception).
Arguments Ok {A} a.
Arguments Raise {A} e.

Definition bind {A B} (m : result A) (k : A -> result B) : result B :=
  match m with
  | Ok a => k a
  | Raise e => Raise e
  end.

Declare Scope py_scope.
Delimit Scope py_scope with py.
Notation "x <- m ;; k" := (bind m (fun x => k))
  (at level 61, m at next level, right associativity) : py_scope.
Notation "' pat <- m ;; k" := (bind m (fun x => match x with pat => k end))
  (at level 61, pat pattern, m at next level, right associativity) : py_scope.
Local Open Scope py_scope.

(** ** [io.BytesIO] opened on a bytes object and read sequentially *)

Record BytesIO : Type := mkBytesIO { getvalue : bytes; tell : nat }.

Definition BytesIO_open (initial : bytes) : BytesIO := mkBytesIO initial 0.

(** The bytes between the position and the end of the buffer. *)
Definition unread (s : BytesIO) : bytes := skipn (tell s) (getvalue s).

(** [stream.read(size)]: at most [size] bytes, fewer at the end of the
    buffer; the position advances by what was returned. *)
Definition read (size : nat) (s : BytesIO) : bytes * BytesIO :=
  let chunk := firstn size (unread s) in
  (chunk, mkBytesIO (getvalue s) (tell s + length chunk)).

(** [ord(b)] for a bytes object [b]. *)
Definition ord (b : bytes) : result N :=
  match b with
  | [c] => Ok (Byte.to_N c)
  | _ => Raise TypeError
  end.

(** ** [struct] *)

(** [struct.pack("B", v)] *)
Definition pack_B (v : N) : result bytes :=
  match Byte.of_N v with
  | Some b => Ok [b]
  | None => Raise StructError
  end.

(** The byte whose value is [n mod 256]. *)
Definition byte_of_N_mod (n : N) : byte :=
  match Byte.of_N (n mod 256) with
  | Some b => b
  | None => x00
  end.

(** [struct.pack(">I", v)] *)
Definition pack_I (v : N) : result bytes :=
  if v <? 2 ^ 32
  then Ok [byte_of_N_mod (N.shiftr v 24); byte_of_N_mod (N.shiftr v 16);
           byte_of_N_mod (N.shiftr v 8); byte_of_N_mod v]
  else Raise StructError.

(** [struct.unpack(">I", b)[0]] *)
Definition unpack_I (b : bytes) : result N :=
  match b with
  | [b3; b2; b1; b0] =>
      Ok (N.lor (N.shiftl (Byte.to_N b3) 24)
         (N.lor (N.shiftl (Byte.to_N b2) 16)
         (N.lor (N.shiftl (Byte.to_N b1) 8) (Byte.to_N b0))))
  | _ => Raise StructError
  end.

(** ** The object header: [parse_object_header] and [write_object_header] *)

(** Matching on a value while keeping the equation that defines it. *)
Definition inspect {A : Type} (x : A) : {y : A | x = y} := exist _ x eq_refl.

(** Unread bytes of a stream, the termination measure of the read loops. *)
Definition remaining (s : BytesIO) : nat := length (unread s).

Lemma skipn_read (A : Type) (l : list A) p n :
  skipn (p + length (firstn n (skipn p l))) l = skipn n (skipn p l).
Proof.
  rewrite skipn_skipn.
  destruct (Nat.le_gt_cases n (length (skipn p l))) as [H|H].
  - rewrite firstn_length_le by exact H. f_equal. lia.
  - rewrite firstn_all2 by lia. rewrite length_skipn in *.
    rewrite !skipn_all2; auto; lia.
Qed.

(** What [read] returns and what it leaves, in terms of the unread bytes. *)
Lemma read_unread n s :
  fst (read n s) = firstn n (unread s) /\
  unread (snd (read n s)) = skipn n (unread s) /\
  getvalue (snd (read n s)) = getvalue s /\
  tell (snd (read n s)) = (tell s + length (firstn n (unread s)))%nat.
Proof.
  unfold read, unread. simpl. repeat split. apply skipn_read.
Qed.

Lemma read_one_remaining s c s' :
  read 1 s = ([c], s') -> (remaining s' < remaining s)%nat.
Proof.
  intros H. destruct (read_unread 1 s) as (H1 & H2 & _).
  rewrite H in H1, H2. simpl in H1, H2. unfold remaining. rewrite H2.
  destruct (unread s) as [|x r]; simpl in *; [discriminate|].
  lia.
Qed.

(** The [while first_byte & 0b10000000] loop of [parse_object_header]: one
    iteration per continuation byte. *)
Equations? parse_object_header_loop (stream : BytesIO) (first_byte size shift : N)
  : result (N * BytesIO) by wf (remaining stream) lt :=
  parse_object_header_loop stream first_byte size shift
    with N.eqb (N.land first_byte 128) 0 => {
    | true := Ok (size, stream);
    | false with inspect (read 1 stream) => {
        | exist _ ([c], stream') _ :=
            let first_byte := Byte.to_N c in
            let size := N.lor size (N.shiftl (N.land first_byte 127) shift) in
            let shift := shift + 7 in
            parse_object_header_loop stream' first_byte size shift;
        | exist _ (_, _) _ := Raise TypeError } }.
Proof.
  unfold remaining, unread in *. simpl tell. simpl getvalue.
  pose proof (skipn_read (getvalue stream) (tell stream) 1) as E.
  simpl firstn in E. rewrite E.
  destruct (skipn (tell stream) (getvalue stream)); simpl; [discriminate | lia].
Qed.

Definition parse_object_header (stream : BytesIO) : result (N * N * BytesIO) :=
  let '(b, stream) := read 1 stream in
  first_byte <- ord b ;;
  let object_type := N.land (N.shiftr first_byte 4) 7 in
  let size := N.land first_byte 15 in
  let shift := 4 in
  '(size, stream) <- parse_object_header_loop stream first_byte size shift ;;
  Ok (object_type, size, stream).

Lemma shiftr_7_lt (size : N) :
  size <> 0 ->
  (N.to_nat (N.size (N.shiftr size 7)) < N.to_nat (N.size size))%nat.
Proof.
  intros H.
  destruct (N.eq_dec (N.shiftr size 7) 0) as [E|E].
  - rewrite E. simpl. destruct size; [congruence|]. simpl. lia.
  - rewrite !N.size_log2 by assumption. rewrite N.log2_shiftr.
    assert (7 <= N.log2 size).
    { destruct (N.le_gt_cases 7 (N.log2 size)); auto.
      exfalso. apply E. apply N.shiftr_eq_0. lia. }
    lia.
Qed.

(** The [while size] loop of [write_object_header]; [stream] is the output
    written so far. *)
Equations? write_object_header_loop (stream : bytes) (header size : N)
  : result (bytes * N) by wf (N.to_nat (N.size size)) lt :=
  write_object_header_loop stream header N0 := Ok (stream, header);
  write_object_header_loop stream header (Npos p)
    with pack_B (N.lor header 128) => {
    | Raise e := Raise e;
    | Ok b :=
        let stream := stream ++ b in
        let header := N.land (Npos p) 127 in
        let size := N.shiftr (Npos p) 7 in
        write_object_header_loop stream header size }.
Proof. exact (@shiftr_7_lt (Npos p) ltac:(discriminate)). Qed.

Definition write_object_header (stream : bytes) (object_type size : N)
  : result bytes :=
  let header := N.lor (N.shiftl object_type 4) (N.land size 15) in
  let size := N.shiftr size 4 in
  '(stream, header) <- write_object_header_loop stream header size ;;
  b <- pack_B header ;;
  Ok (stream ++ b).

(** ** [hashlib.sha1]

    SHA-1 as specified in FIPS 180-4, on 32-bit words held in [N]. *)

Module SHA1.

Definition w32 (x : N) : N := x mod 2 ^ 32.

Definition add32 (x y : N) : N := w32 (x + y).

Definition rotl (n x : N) : N :=
  w32 (N.lor (N.shiftl x n) (N.shiftr x (32 - n))).

Definition not32 (x : N) : N := N.lxor x (2 ^ 32 - 1).

(** Big-endian bytes of a word, and back. *)
Definition word_bytes (x : N) : bytes :=
  [byte_of_N_mod (N.shiftr x 24); byte_of_N_mod (N.shiftr x 16);
   byte_of_N_mod (N.shiftr x 8); byte_of_N_mod x].

Fixpoint words (n : nat) (b : bytes) : list N :=
  match n, b with
  | S n', b3 :: b2 :: b1 :: b0 :: r =>
      N.lor (N.shiftl (Byte.to_N b3) 24)
        (N.lor (N.shiftl (Byte.to_N b2) 16)
           (N.lor (N.shiftl (Byte.to_N b1) 8) (Byte.to_N b0)))
      :: words n' r
  | _, _ => []
  end.

(** Message padding: a [0x80] byte, zeros up to 56 modulo 64, then the
    message length in bits on 64 bits. *)
Definition pad (msg : bytes) : bytes :=
  let len := length msg in
  let zeros := ((64 - (len + 9) mod 64) mod 64)%nat in
  let bits := N.of_nat len * 8 in
  msg ++ [x80] ++ repeat x00 zeros
      ++ word_bytes (N.shiftr bits 32) ++ word_bytes bits.

(** The message schedule, most recent word first: [rws] holds
    [W(t-1), W(t-2), ...]. *)
Fixpoint expand (n : nat) (rws : list N) : list N :=
  match n with
  | O => rws
  | S n' =>
      let w := rotl 1 (N.lxor (N.lxor (nth 2 rws 0) (nth 7 rws 0))
                              (N.lxor (nth 13 rws 0) (nth 15 rws 0))) in
      expand n' (w :: rws)
  end.

Definition schedule (block : bytes) : list N :=
  rev (expand 64 (rev (words 16 block))).

Definition state : Type := N * N * N * N * N.

Definition f (t : nat) (b c d : N) : N :=
  if (t <? 20)%nat then N.lor (N.land b c) (N.land (not32 b) d)
  else if (t <? 40)%nat then N.lxor (N.lxor b c) d
  else if (t <? 60)%nat
       then N.lor (N.lor (N.land b c) (N.land b d)) (N.land c d)
  else N.lxor (N.lxor b c) d.

Definition K (t : nat) : N :=
  if (t <? 20)%nat then 0x5A827999
  else if (t <? 40)%nat then 0x6ED9EBA1
  else if (t <? 60)%nat then 0x8F1BBCDC
  else 0xCA62C1D6.

Definition round (t : nat) (w : N) (st : state) : state :=
  let '(a, b, c, d, e) := st in
  let temp := add32 (add32 (add32 (add32 (rotl 5 a) (f t b c d)) e) (K t)) w in
  (temp, a, rotl 30 b, c, d).

Fixpoint rounds (t : nat) (ws : list N) (st : state) : state :=
  match ws with
  | [] => st
  | w :: ws' => rounds (S t) ws' (round t w st)
  end.

Definition compress (h : state) (block : bytes) : state :=
  let '(h0, h1, h2, h3, h4) := h in
  let '(a, b, c, d, e) := rounds 0 (schedule block) h in
  (add32 h0 a, add32 h1 b, add32 h2 c, add32 h3 d, add32 h4 e).

Fixpoint blocks (n : nat) (msg : bytes) (h : state) : state :=
  match n with
  | O => h
  | S n' => blocks n' (skipn 64 msg) (compress h (firstn 64 msg))
  end.

Definition init : state :=
  (0x67452301, 0xEFCDAB89, 0x98BADCFE, 0x10325476, 0xC3D2E1F0).

(** [hashlib.sha1(data).digest()] *)
Definition digest (data : bytes) : bytes :=
  let padded := pad data in
  let '(h0, h1, h2, h3, h4) :=
    blocks (Nat.div (length padded) 64) padded init in
  word_bytes h0 ++ word_bytes h1 ++ word_bytes h2
    ++ word_bytes h3 ++ word_bytes h4.

End SHA1.

(** [calculate_checksum] *)
Definition calculate_checksum (data : bytes) : bytes := SHA1.digest data.

(** ** Sequences: [in], [find], [replace]

    The operations Python offers on both [str] and [bytes], over any
    element type with decidable equality. *)

Section Sequences.

Variable A : Type.
Variable eq_dec : forall x y : A, {x = y} + {x <> y}.

Fixpoint startswith (prefix s : list A) : bool :=
  match prefix, s with
  | [], _ => true
  | p :: prefix', c :: s' =>
      if eq_dec p c then startswith prefix' s' else false
  | _ :: _, [] => false
  end.

(** [sub in s] *)
Fixpoint contains (sub s : list A) : bool :=
  startswith sub s ||
  match s with
  | [] => false
  | _ :: s' => contains sub s'
  end.

(** [s.find(sub)], searching from index [start]: the lowest index of an
    occurrence, or [-1]. *)
Fixpoint find_from (start : Z) (sub s : list A) : Z :=
  if startswith sub s then start
  else match s with
       | [] => (-1)%Z
       | _ :: s' => find_from (start + 1)%Z sub s'
       end.

Definition find (s sub : list A) : Z := find_from 0%Z sub s.

Lemma startswith_length prefix s :
  startswith prefix s = true -> (length prefix <= length s)%nat.
Proof.
  revert s. induction prefix as [|p prefix IH]; intros [|c s] H; simpl in *;
    try lia; try discriminate.
  destruct (eq_dec p c); [|discriminate]. apply IH in H. lia.
Qed.

(** Replacement of the occurrences of a non-empty [old = o :: old'],
    scanning from the left: after a match the scan resumes behind it. *)
Equations? replace_nonempty (o : A) (old' new s : list A)
  : list A by wf (length s) lt :=
  replace_nonempty o old' new s with inspect (startswith (o :: old') s) => {
    | exist _ true _ :=
        new ++ replace_nonempty o old' new (skipn (length (o :: old')) s);
    | exist _ false _ with s => {
        | [] := [];
        | c :: s' := c :: replace_nonempty o old' new s' } }.
Proof.
  destruct s as [|c s']; [discriminate|]. simpl.
  rewrite length_skipn. lia.
Qed.

(** [s.replace(old, new)]; with an empty [old], Python inserts [new]
    before every element and at the end. *)
Definition replace (s old new : list A) : list A :=
  match old with
  | [] => new ++ flat_map (fun c => c :: new) s
  | o :: old' => replace_nonempty o old' new s
  end.

End Sequences.

(** ** The UTF-8 codec ([bytes.decode("utf-8")], [str.encode("utf-8")])

    RFC 3629: shortest form only, no surrogates, nothing above U+10FFFF. *)

Definition is_continuation (n : N) : bool := (0x80 <=? n) && (n <? 0xC0).

Definition is_surrogate (cp : N) : bool := (0xD800 <=? cp) && (cp <? 0xE000).

Fixpoint utf8_decode (b : bytes) : option str :=
  match b with
  | [] => Some []
  | b0 :: r0 =>
      let n0 := Byte.to_N b0 in
      if n0 <? 0x80 then option_map (cons n0) (utf8_decode r0)
      else if n0 <? 0xC2 then None
      else if n0 <? 0xE0 then
        match r0 with
        | b1 :: r1 =>
            let n1 := Byte.to_N b1 in
            let cp := (n0 - 0xC0) * 64 + (n1 - 0x80) in
            if is_continuation n1
            then option_map (cons cp) (utf8_decode r1)
            else None
        | _ => None
        end
      else if n0 <? 0xF0 then
        match r0 with
        | b1 :: b2 :: r2 =>
            let n1 := Byte.to_N b1 in
            let n2 := Byte.to_N b2 in
            let cp := (n0 - 0xE0) * 4096 + (n1 - 0x80) * 64 + (n2 - 0x80) in
            if is_continuation n1 && is_continuation n2
               && (0x800 <=? cp) && negb (is_surrogate cp)
            then option_map (cons cp) (utf8_decode r2)
            else None
        | _ => None
        end
      else if n0 <? 0xF5 then
        match r0 with
        | b1 :: b2 :: b3 :: r3 =>
            let n1 := Byte.to_N b1 in
            let n2 := Byte.to_N b2 in
            let n3 := Byte.to_N b3 in
            let cp := (n0 - 0xF0) * 262144 + (n1 - 0x80) * 4096
                      + (n2 - 0x80) * 64 + (n3 - 0x80) in
            if is_continuation n1 && is_continuation n2 && is_continuation n3
               && (0x10000 <=? cp) && (cp <? 0x110000)
            then option_map (cons cp) (utf8_decode r3)
            else None
        | _ => None
        end
      else None
  end.

(** The UTF-8 bytes of one code point; [None] for a surrogate (and for a
    value that is no code point at all). *)
Definition utf8_encode_codepoint (cp : N) : option bytes :=
  if cp <? 0x80 then Some [byte_of_N_mod cp]
  else if cp <? 0x800 then
    Some [byte_of_N_mod (0xC0 + cp / 64); byte_of_N_mod (0x80 + cp mod 64)]
  else if cp <? 0x10000 then
    if is_surrogate cp then None
    else Some [byte_of_N_mod (0xE0 + cp / 4096);
               byte_of_N_mod (0x80 + (cp / 64) mod 64);
               byte_of_N_mod (0x80 + cp mod 64)]
  else if cp <? 0x110000 then
    Some [byte_of_N_mod (0xF0 + cp / 262144);
          byte_of_N_mod (0x80 + (cp / 4096) mod 64);
          byte_of_N_mod (0x80 + (cp / 64) mod 64);
          byte_of_N_mod (0x80 + cp mod 64)]
  else None.

Fixpoint utf8_encode (s : str) : option bytes :=
  match s with
  | [] => Some []
  | cp :: s' =>
      match utf8_encode_codepoint cp, utf8_encode s' with
      | Some b, Some b' => Some (b ++ b')
      | _, _ => None
      end
  end.

(** [object_data.decode("utf-8")] and [object_str.encode("utf-8")] *)
Definition decode_utf8 (b : bytes) : result str :=
  match utf8_decode b with
  | Some s => Ok s
  | None => Raise UnicodeDecodeError
  end.

Definition encode_utf8 (s : str) : result bytes :=
  match utf8_encode s with
  | Some b => Ok b
  | None => Raise UnicodeEncodeError
  end.

(** ** [modify_commit_object] *)

Definition str_contains : str -> str -> bool := contains N.eq_dec.
Definition str_replace : str -> str -> str -> str := replace N.eq_dec.

(** The literal the rewriter looks for, and the prefix it keeps. *)
Definition commit_marker : str := str_of_string "Commit: ".
Definition commit_literal : str :=
  str_of_string "Commit: GitHub <noreply@github.com>".

Definition modify_commit_object (object_data : bytes) (new_commit_field : str)
  : result bytes :=
  object_str <- decode_utf8 object_data ;;
  let object_str :=
    if str_contains commit_marker object_str
    then str_replace object_str commit_literal
           (commit_marker ++ new_commit_field)
    else object_str in
  encode_utf8 object_str.

(** ** The collaborators: [zlib] and [base64]

    Both are used as services; the development fixes only their
    signatures. [None] stands for a raised [zlib.error], respectively
    [binascii.Error]. *)

Class Zlib : Type := {
  (** the state of a [zlib.decompressobj()] *)
  Decompress : Type;
  decompressobj : Decompress;
  (** [decompressor.decompress(chunk)]; the data it returns is not used by
      the module, only the new state and whether it raised *)
  Decompress_decompress : Decompress -> bytes -> option Decompress;
  (** [zlib.decompress(data)] *)
  zlib_decompress : bytes -> option bytes;
  (** [zlib.compress(data)] *)
  zlib_compress : bytes -> bytes
}.

Class Base64 : Type := {
  (** [binascii.a2b_base64(s)] on a bytes object; [None] when it raises
      [binascii.Error] *)
  a2b_base64 : bytes -> option bytes;
  (** [base64.b64encode(b).decode()] *)
  b64encode : bytes -> str
}.

(** [s.encode('ascii')]; [None] when it raises [UnicodeEncodeError]. *)
Definition encode_ascii (s : str) : option bytes :=
  if forallb (fun c => c <? 128) s then Some (map byte_of_N_mod s) else None.

(** [base64.b64decode(s)] for a [str]: the library first encodes the
    string as ASCII, turning the [UnicodeEncodeError] of a character that
    is not ASCII into a plain [ValueError], and then hands the bytes to
    [binascii.a2b_base64], whose [binascii.Error] it lets through. *)
Definition b64decode {base64 : Base64} (s : str) : result bytes :=
  match encode_ascii s with
  | None =>
      Raise (ValueError "string argument should contain only ASCII characters")
  | Some b =>
      match a2b_base64 b with
      | Some data => Ok data
      | None => Raise BinasciiError
      end
  end.

Section Packfile.

Context {zlib : Zlib}.

(** ** [decompress_object] *)

Lemma read_chunk_remaining n s c chunk s' :
  read n s = (c :: chunk, s') -> (remaining s' < remaining s)%nat.
Proof.
  intros H. destruct (read_unread n s) as (H1 & H2 & _).
  rewrite H in H1, H2. simpl in H1, H2. unfold remaining. rewrite H2.
  rewrite length_skipn.
  assert (Hl : (length (c :: chunk) <= n)%nat)
    by (rewrite H1; apply firstn_le_length).
  assert (Hu : (length (c :: chunk) <= length (unread s))%nat)
    by (rewrite H1, length_firstn; lia).
  simpl in *. lia.
Qed.

(** The size of the chunks [decompress_object] reads. *)
Definition chunk_size : nat := N.to_nat 8192.

Lemma chunk_size_pos : (0 < chunk_size)%nat.
Proof. unfold chunk_size. lia. Qed.

Opaque chunk_size.

(** The [while True] loop, reading chunks of [size] bytes: chunks are
    read and accumulated until the stream is exhausted or the
    decompressor raises. *)
Equations? decompress_object_loop (size : nat) (decompressor : Decompress)
    (stream : BytesIO) (compressed_data : bytes)
  : bytes * BytesIO by wf (remaining stream) lt :=
  decompress_object_loop size decompressor stream compressed_data
    with inspect (read size stream) => {
    | exist _ ([], stream') _ := (compressed_data, stream');
    | exist _ (c :: chunk, stream') _
        with Decompress_decompress decompressor (c :: chunk) => {
        | None := (compressed_data ++ c :: chunk, stream');
        | Some decompressor' :=
            decompress_object_loop size decompressor' stream'
              (compressed_data ++ c :: chunk) } }.
Proof.
  apply (@read_chunk_remaining size stream c chunk).
  unfold read. rewrite H0. reflexivity.
Qed.

Definition decompress_object (stream : BytesIO) : bytes * BytesIO :=
  let decompressor := decompressobj in
  let compressed_data := [] in
  decompress_object_loop chunk_size decompressor stream compressed_data.

(** ** [parse_and_modify_push_request] *)

Definition PACK : bytes := bytes_of_string "PACK".

(** The body of the [for _ in range(num_objects)] loop: one object is
    read from [packfile_stream] and its re-encoding is appended to
    [modified_packfile]. *)
Definition process_object (packfile_stream : BytesIO)
    (modified_packfile : bytes) (new_commit_field : str)
  : result (BytesIO * bytes) :=
  '(object_type, object_size, packfile_stream) <-
     parse_object_header packfile_stream ;;
  let '(compressed_data, packfile_stream) :=
    decompress_object packfile_stream in
  object_data <- match zlib_decompress compressed_data with
                 | Some d => Ok d
                 | None => Raise ZlibError
                 end ;;
  object_data <- (if object_type =? 1
                  then modify_commit_object object_data new_commit_field
                  else Ok object_data) ;;
  let compressed_data := zlib_compress object_data in
  modified_packfile <-
    write_object_header modified_packfile object_type
      (N.of_nat (length object_data)) ;;
  Ok (packfile_stream, modified_packfile ++ compressed_data).

Fixpoint process_objects (count : nat) (packfile_stream : BytesIO)
    (modified_packfile : bytes) (new_commit_field : str)
  : result (BytesIO * bytes) :=
  match count with
  | O => Ok (packfile_stream, modified_packfile)
  | S count' =>
      '(packfile_stream, modified_packfile) <-
         process_object packfile_stream modified_packfile new_commit_field ;;
      process_objects count' packfile_stream modified_packfile
        new_commit_field
  end.

(** Steps 2 to 4 of [parse_and_modify_push_request]: from the decoded
    request [binary_data] to the reassembled [modified_request]. The
    [print] of the version and the object count is not modelled. *)
Definition modify_push_request (binary_data : bytes) (new_commit_field : str)
  : result bytes :=
  let pack_start := find Byte.byte_eq_dec binary_data PACK in
  if (pack_start =? -1)%Z
  then Raise (ValueError "PACK section not found in the push request")
  else
    let metadata := firstn (Z.to_nat pack_start) binary_data in
    let packfile_data := skipn (Z.to_nat pack_start) binary_data in
    let packfile_stream := BytesIO_open packfile_data in
    let modified_packfile := [] in
    let '(magic, packfile_stream) := read 4 packfile_stream in
    if negb (bytes_eqb magic PACK)
    then Raise (ValueError "Invalid PACK file format")
    else
      let modified_packfile := modified_packfile ++ magic in
      let '(b, packfile_stream) := read 4 packfile_stream in
      version <- unpack_I b ;;
      let '(b, packfile_stream) := read 4 packfile_stream in
      num_objects <- unpack_I b ;;
      b <- pack_I version ;;
      let modified_packfile := modified_packfile ++ b in
      b <- pack_I num_objects ;;
      let modified_packfile := modified_packfile ++ b in
      '(packfile_stream, modified_packfile) <-
         process_objects (N.to_nat num_objects) packfile_stream
           modified_packfile new_commit_field ;;
      let checksum := calculate_checksum modified_packfile in
      let modified_packfile := modified_packfile ++ checksum in
      let modified_request := metadata ++ modified_packfile in
      Ok modified_request.

Context {base64 : Base64}.

Definition parse_and_modify_push_request (base64_data new_commit_field : str)
  : result str :=
  binary_data <- b64decode base64_data ;;
  modified_request <- modify_push_request binary_data new_commit_field ;;
  Ok (b64encode modified_request).

End Packfile.

(** ** An instance of [Zlib]: streams made of stored blocks

    The part of the zlib format (RFC 1950, RFC 1951) that needs no Huffman
    coding: a two-byte header, a sequence of stored blocks (what level 0
    produces) and the Adler-32 of the data. On such streams the functions
    below are [zlib.decompress] and [decompressobj().decompress]; a block
    of another type is reported as an error, which is right for the
    reserved type only. The concrete runs of this development use it. *)

Module StoredZlib.

Definition adler32 (data : bytes) : N :=
  let '(a, b) :=
    fold_left (fun '(a, b) c =>
                 let a := (a + Byte.to_N c) mod 65521 in
                 (a, (b + a) mod 65521))
              data (1, 0) in
  N.lor (N.shiftl b 16) a.

Definition le16 (n : N) : bytes :=
  [byte_of_N_mod n; byte_of_N_mod (N.shiftr n 8)].

Definition be32 (n : N) : bytes :=
  [byte_of_N_mod (N.shiftr n 24); byte_of_N_mod (N.shiftr n 16);
   byte_of_N_mod (N.shiftr n 8); byte_of_N_mod n].

(** The most a stored block can hold. *)
Definition max_stored : nat := N.to_nat 65535.

Lemma max_stored_pos : (0 < max_stored)%nat.
Proof. unfold max_stored. lia. Qed.

Opaque max_stored.

(** Stored blocks holding [data], at most 65535 bytes each. *)
Equations? stored_blocks (data : bytes) : bytes by wf (length data) lt :=
  stored_blocks data with inspect (N.of_nat (length data) <=? 65535) => {
    | exist _ true _ :=
        [x01] ++ le16 (N.of_nat (length data))
              ++ le16 (65535 - N.of_nat (length data)) ++ data;
    | exist _ false _ :=
        [x00] ++ le16 65535 ++ le16 0 ++ firstn max_stored data
              ++ stored_blocks (skipn max_stored data) }.
Proof.
  apply N.leb_gt in e. rewrite length_skipn.
  pose proof max_stored_pos. lia.
Qed.
Transparent max_stored.

Definition compress (data : bytes) : bytes :=
  [x78; x01] ++ stored_blocks data ++ be32 (adler32 data).

(** What the inflater has seen so far. *)
Inductive progress : Type :=
| Finished (data unused : bytes)  (* end of stream reached *)
| NeedInput                       (* valid so far, stream not complete *)
| Corrupt.                        (* [zlib.error] *)

(** The blocks of a stream, from the first byte of a block header;
    [acc] is the data inflated so far. *)
Equations? inflate_blocks (input acc : bytes) : progress
  by wf (length input) lt :=
  inflate_blocks [] acc := NeedInput;
  inflate_blocks (hd :: r) acc
    with N.land (N.shiftr (Byte.to_N hd) 1) 3 =? 0 => {
    | false := Corrupt;
    | true with r => {
        | l0 :: l1 :: n0 :: n1 :: body =>
            let len := Byte.to_N l0 + 256 * Byte.to_N l1 in
            let nlen := Byte.to_N n0 + 256 * Byte.to_N n1 in
            if negb (len + nlen =? 65535) then Corrupt
            else if (length body <? N.to_nat len)%nat then NeedInput
            else
              let acc := acc ++ firstn (N.to_nat len) body in
              let rest := skipn (N.to_nat len) body in
              if N.odd (Byte.to_N hd) then
                match rest with
                | a3 :: a2 :: a1 :: a0 :: unused =>
                    if bytes_eqb [a3; a2; a1; a0] (be32 (adler32 acc))
                    then Finished acc unused
                    else Corrupt
                | _ => NeedInput
                end
              else inflate_blocks rest acc;
        | _ => NeedInput } }.
Proof. subst rest. rewrite length_skipn. lia. Qed.

(** A whole stream: header, blocks, checksum. *)
Definition inflate (input : bytes) : progress :=
  match input with
  | cmf :: flg :: r =>
      let c := Byte.to_N cmf in
      let f := Byte.to_N flg in
      if (N.land c 15 =? 8) && (N.shiftr c 4 <=? 7)
         && ((256 * c + f) mod 31 =? 0) && negb (N.testbit f 5)
      then inflate_blocks r []
      else Corrupt
  | _ => NeedInput
  end.

(** [zlib.decompress]: the stream must be complete; what follows it is
    ignored. *)
Definition decompress (data : bytes) : option bytes :=
  match inflate data with
  | Finished d _ => Some d
  | _ => None
  end.

(** A decompression object: the input it was given, and whether the end
    of the stream was reached ([eof]). *)
Record decompressor : Type :=
  mkDecompressor { fed : bytes; eof : bool }.

Definition decompressor_decompress (d : decompressor) (chunk : bytes)
  : option decompressor :=
  if eof d then Some (mkDecompressor (fed d ++ chunk) true)
  else match inflate (fed d ++ chunk) with
       | Finished _ _ => Some (mkDecompressor (fed d ++ chunk) true)
       | NeedInput => Some (mkDecompressor (fed d ++ chunk) false)
       | Corrupt => None
       end.

#[export] Instance zlib : Zlib := {|
  Decompress := decompressor;
  decompressobj := mkDecompressor [] false;
  Decompress_decompress := decompressor_decompress;
  zlib_decompress := decompress;
  zlib_compress := compress
|}.

End StoredZlib.

(** ** Concrete push requests

    Small requests built from stored-block streams, on which the module is
    run in the sequel. *)

Module Example.

Definition zlib : Zlib := StoredZlib.zlib.

(** An object record as it stands in a packfile: the header for
    [object_type] and a declared size, then the zlib stream of [data]. *)
Definition object_record_sized (object_type declared_size : N)
    (data : bytes) : bytes :=
  match write_object_header [] object_type declared_size with
  | Ok header => header ++ StoredZlib.compress data
  | Raise _ => []
  end.

Definition object_record (object_type : N) (data : bytes) : bytes :=
  object_record_sized object_type (N.of_nat (length data)) data.

(** A well-formed packfile: marker, version, object count, the records,
    and the SHA-1 of all that. *)
Definition packfile (version : N) (records : list bytes) : bytes :=
  let body := PACK ++ StoredZlib.be32 version
                   ++ StoredZlib.be32 (N.of_nat (length records))
                   ++ concat records in
  body ++ calculate_checksum body.

Definition commit_text : bytes :=
  bytes_of_string "tree 0" ++ [x0a]
    ++ bytes_of_string "Commit: GitHub <noreply@github.com>" ++ [x0a; x0a]
    ++ bytes_of_string "msg".

Definition blob_text : bytes := bytes_of_string "hi".

(** A flush packet, the end of the ref-update lines of a request. *)
Definition flush_pkt : bytes := bytes_of_string "0000".

Definition empty_pack : bytes := packfile 2 [].

Definition one_commit : bytes := packfile 2 [object_record 1 commit_text].

Definition one_blob : bytes := packfile 2 [object_record 3 blob_text].

(** A tree with one entry: mode, name, and a binary object id, which is
    not valid UTF-8. *)
Definition tree_entry : bytes :=
  bytes_of_string "100644 a" ++ [x00; xf6; xff; x01; x02].

Definition one_tree : bytes := packfile 2 [object_record 2 tree_entry].

Definition commit_and_blob : bytes :=
  packfile 2 [object_record 1 commit_text; object_record 3 blob_text].

(** A blob whose header declares 5 bytes while its data has 2. *)
Definition mis_sized_blob : bytes :=
  packfile 2 [object_record_sized 3 5 blob_text].

Definition new_commit_field : str := str_of_string "Bob <bob@example.com>".

End Example.

(** ** Vocabulary of the statements *)

(** [sub] occurs in [s] at index [i]. *)
Definition occurs_at {A : Type} (sub s : list A) (i : nat) : Prop :=
  exists pre post, s = pre ++ sub ++ post /\ length pre = i.

(** The exceptions a call can raise all satisfy [P]. *)
Definition raises_only {A} (P : exception -> Prop) (r : result A) : Prop :=
  forall e, r = Raise e -> P e.

(** No [ValueError] among the exceptions. *)
Definition not_ValueError (e : exception) : Prop :=
  forall msg, e <> ValueError msg.

(** The stream of a packfile, positioned behind its 12-byte header. *)
Definition objects_of (packfile : bytes) : BytesIO := mkBytesIO packfile 12.

(** The pieces [p0 :: pieces] put together with [sep] between them. *)
Fixpoint join (A : Type) (sep p0 : list A) (pieces : list (list A)) : list A :=
  match pieces with
  | [] => p0
  | p :: pieces' => p0 ++ sep ++ join sep p pieces'
  end.

(** The UTF-8 bytes of the two literals of [modify_commit_object]. *)
Definition commit_marker_bytes : bytes := bytes_of_string "Commit: ".
Definition commit_literal_bytes : bytes :=
  bytes_of_string "Commit: GitHub <noreply@github.com>".

(** * Properties *)

(** ** Results and equality of bytes *)

Lemma bytes_eqb_eq a b : bytes_eqb a b = true <-> a = b.
Proof.
  unfold bytes_eqb. destruct (list_eq_dec _ a b); split; congruence.
Qed.

Lemma bind_Ok {A B} (m : result A) (k : A -> result B) b :
  bind m k = Ok b -> exists a, m = Ok a /\ k a = Ok b.
Proof. destruct m; simpl; [eauto | discriminate]. Qed.

(** ** The object header codec *)

Lemma parse_object_header_loop_step stream first_byte size shift :
  parse_object_header_loop stream first_byte size shift =
  if N.land first_byte 128 =? 0 then Ok (size, stream)
  else match read 1 stream with
       | ([c], stream') =>
           parse_object_header_loop stream' (Byte.to_N c)
             (N.lor size (N.shiftl (N.land (Byte.to_N c) 127) shift)) (shift + 7)
       | _ => Raise TypeError
       end.
Proof.
  rewrite parse_object_header_loop_equation_1.
  destruct (N.land first_byte 128 =? 0); [reflexivity|].
  unfold parse_object_header_loop_unfold_clause_1.
  remember (read 1 stream) as r eqn:Hr in |- * at 2.
  destruct (inspect (read 1 stream)) as [[b s'] E].
  assert (Hr' : r = (b, s')) by congruence. clear Hr. subst r.
  destruct b as [|c [|? ?]]; reflexivity.
Qed.

Lemma write_object_header_loop_step stream header size :
  write_object_header_loop stream header size =
  if size =? 0 then Ok (stream, header)
  else bind (pack_B (N.lor header 128)) (fun b =>
         write_object_header_loop (stream ++ b) (N.land size 127)
           (N.shiftr size 7)).
Proof.
  destruct size as [|p].
  - reflexivity.
  - rewrite write_object_header_loop_equation_2. simpl.
    destruct (pack_B (N.lor header 128)); reflexivity.
Qed.

Lemma land_ones_testbit a k n :
  N.testbit (N.land a (N.ones k)) n = N.testbit a n && (n <? k).
Proof.
  rewrite N.land_spec. destruct (N.ltb_spec n k).
  - rewrite N.ones_spec_low by assumption. reflexivity.
  - rewrite N.ones_spec_high by assumption. reflexivity.
Qed.

Lemma shiftl_testbit a k n :
  N.testbit (N.shiftl a k) n = (k <=? n) && N.testbit a (n - k).
Proof.
  destruct (N.leb_spec k n).
  - rewrite N.shiftl_spec_high' by assumption. reflexivity.
  - rewrite N.shiftl_spec_low by assumption. reflexivity.
Qed.

(** Splitting off the low [j] bits of [r] and putting them back. *)
Lemma lor_low_high r j k :
  N.lor (N.shiftl (N.land r (N.ones j)) k) (N.shiftl (N.shiftr r j) (k + j))
  = N.shiftl r k.
Proof.
  apply N.bits_inj. intros n.
  rewrite N.lor_spec, !shiftl_testbit, land_ones_testbit, N.shiftr_spec'.
  destruct (N.leb_spec k n), (N.leb_spec (k + j) n), (N.ltb_spec (n - k) j);
    simpl; try lia; rewrite ?andb_false_r, ?andb_true_r, ?orb_false_r; auto.
  replace (n - (k + j) + j) with (n - k) by lia. reflexivity.
Qed.

Lemma small_land_128 h : h < 128 -> N.land h 128 = 0.
Proof.
  intros H. apply N.bits_inj. intros n. rewrite N.land_spec, N.bits_0.
  change 128 with (2 ^ 7). rewrite N.pow2_bits_eqb.
  destruct (N.eqb_spec 7 n); [|apply andb_false_r].
  subst. rewrite andb_true_r. apply N.bits_above_log2.
  destruct (N.eq_dec h 0) as [->|Hh]; [reflexivity|].
  apply N.log2_lt_pow2; lia.
Qed.

Lemma small_testbit h k n : h < 2 ^ k -> k <= n -> N.testbit h n = false.
Proof.
  intros H Hn. destruct (N.eq_dec h 0) as [->|Hh]; [apply N.bits_0|].
  apply N.bits_above_log2. apply N.lt_le_trans with k; [|assumption].
  apply N.log2_lt_pow2; lia.
Qed.

Lemma testbit_128 n : N.testbit 128 n = (n =? 7).
Proof. change 128 with (2 ^ 7). rewrite N.pow2_bits_eqb, N.eqb_sym. reflexivity. Qed.

Lemma lor_128_land_127 h : h < 128 -> N.land (N.lor h 128) 127 = h.
Proof.
  intros H. apply N.bits_inj. intros n.
  change 127 with (N.ones 7). rewrite land_ones_testbit, N.lor_spec, testbit_128.
  destruct (N.ltb_spec n 7).
  - replace (n =? 7) with false by (symmetry; apply N.eqb_neq; lia).
    rewrite orb_false_r, andb_true_r. reflexivity.
  - rewrite andb_false_r. symmetry. apply small_testbit with 7; [exact H | lia].
Qed.

Lemma lor_128_land_128 h : (N.land (N.lor h 128) 128 =? 0) = false.
Proof.
  apply N.eqb_neq. intros E.
  assert (Hb : N.testbit (N.land (N.lor h 128) 128) 7 = true).
  { rewrite N.land_spec, N.lor_spec, testbit_128. simpl.
    rewrite orb_true_r. reflexivity. }
  rewrite E in Hb. discriminate.
Qed.

Lemma lor_128_bound h : h < 128 -> N.lor h 128 < 256.
Proof.
  intros H. destruct (N.eq_dec (N.lor h 128) 0) as [->|Hn]; [lia|].
  apply N.log2_lt_pow2 with (b := 8); [lia|].
  rewrite N.log2_lor. change (N.log2 128) with 7.
  destruct (N.eq_dec h 0) as [->|Hh]; [simpl; lia|].
  assert (N.log2 h < 7) by (apply N.log2_lt_pow2; lia). lia.
Qed.

Lemma pack_B_small v : v < 256 -> exists c, pack_B v = Ok [c] /\ Byte.to_N c = v.
Proof.
  intros H. unfold pack_B. destruct (Byte.of_N v) as [c|] eqn:E.
  - exists c. split; [reflexivity|]. apply Byte.to_of_N. exact E.
  - apply Byte.of_N_None_iff in E. lia.
Qed.

(** Reading one byte from a stream whose unread part is known. *)
Lemma read_1_cons s c w :
  unread s = c :: w ->
  exists s', read 1 s = ([c], s') /\ unread s' = w /\
             tell s' = (tell s + 1)%nat /\ getvalue s' = getvalue s.
Proof.
  intros H. exists (mkBytesIO (getvalue s) (tell s + 1)).
  unfold read. rewrite H. simpl. split; [reflexivity|]. split; [|auto].
  pose proof (skipn_read (getvalue s) (tell s) 1) as E.
  unfold unread in *. rewrite H in E. exact E.
Qed.

(** The two loops are inverse of each other: what the write loop emits for
    the size bits [r] (pending byte [h]), the parse loop reads back as
    [r], merged at the current shift. *)
Lemma loops_inverse (m : nat) :
  forall r h out, (N.to_nat (N.size r) <= m)%nat -> h < 128 ->
  exists c w,
    ('(o, h') <- write_object_header_loop out h r ;;
     b <- pack_B h' ;; Ok (o ++ b)) = Ok (out ++ c :: w) /\
    N.land (Byte.to_N c) 127 = h /\
    forall s acc shift rest, unread s = w ++ rest ->
      exists s', parse_object_header_loop s (Byte.to_N c) acc shift
                 = Ok (N.lor acc (N.shiftl r shift), s') /\
                 unread s' = rest /\
                 tell s' = (tell s + length w)%nat /\
                 getvalue s' = getvalue s.
Proof.
  induction m as [|m IH]; intros r h out Hm Hh.
  - assert (r = 0) by (destruct r; simpl in *; [reflexivity | lia]). subst r.
    destruct (@pack_B_small h) as (c & Hc & Hv); [lia|].
    exists c, []. rewrite write_object_header_loop_step. simpl. rewrite Hc.
    split; [reflexivity|]. split.
    { rewrite Hv. change 127 with (N.ones 7). rewrite N.land_ones.
      apply N.mod_small. exact Hh. }
    intros s acc shift rest Hs. exists s.
    rewrite parse_object_header_loop_step, Hv, small_land_128 by exact Hh.
    simpl. rewrite N.lor_0_r. repeat split; auto.
  - destruct (N.eq_dec r 0) as [->|Hr]; [apply (IH 0 h out); simpl; [lia|exact Hh]|].
    destruct (@pack_B_small (N.lor h 128)) as (c & Hc & Hv);
      [apply lor_128_bound; exact Hh|].
    destruct (IH (N.shiftr r 7) (N.land r 127) (out ++ [c])) as (c1 & w1 & Hw & Hl & Hp).
    { pose proof (shiftr_7_lt Hr). lia. }
    { change 127 with (N.ones 7). rewrite N.land_ones. apply N.mod_lt. discriminate. }
    exists c, (c1 :: w1). rewrite write_object_header_loop_step.
    replace (r =? 0) with false by (symmetry; apply N.eqb_neq; exact Hr).
    rewrite Hc. cbn [bind]. rewrite Hw, <- app_assoc. split; [reflexivity|].
    split; [rewrite Hv; apply lor_128_land_127; exact Hh|].
    intros s acc shift rest Hs. simpl in Hs.
    destruct (read_1_cons Hs) as (s1 & Hr1 & Hu1 & Ht1 & Hg1).
    destruct (Hp s1 (N.lor acc (N.shiftl (N.land (Byte.to_N c1) 127) shift))
                (shift + 7) rest Hu1) as (s' & Hq & Hu' & Ht' & Hg').
    exists s'. rewrite parse_object_header_loop_step, Hv, lor_128_land_128, Hr1, Hq.
    split.
    { f_equal. f_equal. rewrite Hl, <- N.lor_assoc. f_equal.
      change 127 with (N.ones 7). apply lor_low_high. }
    simpl. repeat split; auto; try congruence. lia.
Qed.

Lemma first_header_bound t s : t < 8 -> N.lor (N.shiftl t 4) (N.land s 15) < 128.
Proof.
  intros H. set (h := N.lor _ _).
  destruct (N.eq_dec h 0) as [->|Hn]; [lia|].
  apply N.log2_lt_pow2 with (b := 7); [lia|].
  unfold h. rewrite N.log2_lor.
  assert (N.log2 (N.shiftl t 4) < 7).
  { destruct (N.eq_dec t 0) as [->|Ht]; [simpl; lia|].
    rewrite N.log2_shiftl by exact Ht.
    assert (N.log2 t < 3) by (apply N.log2_lt_pow2; lia). lia. }
  assert (N.log2 (N.land s 15) < 7).
  { pose proof (N.log2_land s 15). change (N.log2 15) with 3 in *. lia. }
  lia.
Qed.

Lemma first_header_type t s c :
  t < 8 -> N.land c 127 = N.lor (N.shiftl t 4) (N.land s 15) ->
  N.land (N.shiftr c 4) 7 = t.
Proof.
  intros Ht H. apply N.bits_inj. intros n.
  change 7 with (N.ones 3). rewrite land_ones_testbit, N.shiftr_spec'.
  destruct (N.ltb_spec n 3).
  - rewrite andb_true_r.
    assert (E : N.testbit (N.land c 127) (n + 4) = N.testbit c (n + 4)).
    { change 127 with (N.ones 7). rewrite land_ones_testbit.
      replace (n + 4 <? 7) with true by (symmetry; apply N.ltb_lt; lia).
      apply andb_true_r. }
    rewrite <- E, H, N.lor_spec, shiftl_testbit.
    change 15 with (N.ones 4). rewrite land_ones_testbit.
    replace (4 <=? n + 4) with true by (symmetry; apply N.leb_le; lia).
    replace (n + 4 <? 4) with false by (symmetry; apply N.ltb_ge; lia).
    rewrite andb_false_r, orb_false_r. simpl. f_equal. lia.
  - rewrite andb_false_r. symmetry. apply small_testbit with 3; [exact Ht | exact H0].
Qed.

Lemma first_header_size t s c :
  N.land c 127 = N.lor (N.shiftl t 4) (N.land s 15) ->
  N.land c 15 = N.land s 15.
Proof.
  intros H. apply N.bits_inj. intros n.
  change 15 with (N.ones 4). rewrite !land_ones_testbit.
  destruct (N.ltb_spec n 4); [|rewrite !andb_false_r; reflexivity].
  rewrite !andb_true_r.
  assert (E : N.testbit (N.land c 127) n = N.testbit c n).
  { change 127 with (N.ones 7). rewrite land_ones_testbit.
    replace (n <? 7) with true by (symmetry; apply N.ltb_lt; lia).
    apply andb_true_r. }
  rewrite <- E, H, N.lor_spec, shiftl_testbit.
  replace (4 <=? n) with false by (symmetry; apply N.leb_gt; lia).
  change 15 with (N.ones 4). rewrite land_ones_testbit.
  replace (n <? 4) with true by (symmetry; apply N.ltb_lt; lia).
  simpl. apply andb_true_r.
Qed.

(** C4: decoding what the header encoder wrote gives back the type and the
    size, and consumes exactly the bytes written. For every [object_type] in
    the 3-bit range and every [size], [write_object_header] succeeds and
    appends some bytes [header] to the output; [parse_object_header] on any
    stream whose unread bytes start with [header] returns
    [(object_type, size)] and leaves the position just after [header]. *)
Theorem parse_write_object_header_roundtrip (object_type size : N)
    (out rest : bytes) :
  object_type < 8 ->
  exists header,
    write_object_header out object_type size = Ok (out ++ header) /\
    forall stream, unread stream = header ++ rest ->
      exists stream',
        parse_object_header stream = Ok (object_type, size, stream') /\
        unread stream' = rest /\
        tell stream' = (tell stream + length header)%nat /\
        getvalue stream' = getvalue stream.
Proof.
  intros Ht.
  destruct (@loops_inverse _ (N.shiftr size 4)
              (N.lor (N.shiftl object_type 4) (N.land size 15)) out
              (le_n _) (first_header_bound size Ht))
    as (c & w & Hw & Hl & Hp).
  exists (c :: w). split.
  - unfold write_object_header. exact Hw.
  - intros stream Hs. simpl in Hs.
    destruct (read_1_cons Hs) as (s1 & Hr1 & Hu1 & Ht1 & Hg1).
    destruct (Hp s1 (N.land (Byte.to_N c) 15) 4 rest Hu1)
      as (s' & Hq & Hu' & Ht' & Hg').
    exists s'. unfold parse_object_header. rewrite Hr1. cbn [ord bind].
    rewrite Hq. cbn [bind].
    rewrite (first_header_type Ht Hl), (first_header_size Hl).
    split.
    { do 3 f_equal. change 15 with (N.ones 4).
      pose proof (@lor_low_high size 4 0) as E. simpl in E.
      rewrite N.shiftl_0_r in E. rewrite !N.shiftl_0_r in E. exact E. }
    repeat split; auto; try congruence. simpl length. lia.
Qed.


(** What a successful [write_object_header] appended decodes to the type
    and the size it was given. *)
Lemma written_header_decodes (object_type size : N) (out out' : bytes) :
  object_type < 8 ->
  write_object_header out object_type size = Ok out' ->
  exists header,
    out' = out ++ header /\
    forall rest stream, unread stream = header ++ rest ->
      exists stream',
        parse_object_header stream = Ok (object_type, size, stream') /\
        unread stream' = rest.
Proof.
  intros Ht Hw.
  destruct (@loops_inverse _ (N.shiftr size 4)
              (N.lor (N.shiftl object_type 4) (N.land size 15)) out
              (le_n _) (first_header_bound size Ht))
    as (c & w & Hw' & Hl & Hp).
  unfold write_object_header in Hw. rewrite Hw' in Hw. inversion Hw.
  exists (c :: w). split; [reflexivity|].
  intros rest stream Hs. simpl in Hs.
  destruct (read_1_cons Hs) as (s1 & Hr1 & Hu1 & _).
  destruct (Hp s1 (N.land (Byte.to_N c) 15) 4 rest Hu1)
    as (s' & Hq & Hu' & _).
  exists s'. unfold parse_object_header. rewrite Hr1. cbn [ord bind].
  rewrite Hq. cbn [bind].
  rewrite (first_header_type Ht Hl), (first_header_size Hl).
  split; [|exact Hu'].
  do 3 f_equal. change 15 with (N.ones 4).
  pose proof (@lor_low_high size 4 0) as E. simpl in E.
  rewrite !N.shiftl_0_r in E. exact E.
Qed.

Lemma parse_write_object_header_roundtrip_witness :
  3 < 8 /\
  exists header,
    write_object_header [] 3 100000 = Ok ([] ++ header) /\
    forall stream, unread stream = header ++ [x01; x02] ->
      exists stream',
        parse_object_header stream = Ok (3, 100000, stream') /\
        unread stream' = [x01; x02] /\
        tell stream' = (tell stream + length header)%nat /\
        getvalue stream' = getvalue stream.
Proof.
  split; [reflexivity|].
  apply (@parse_write_object_header_roundtrip 3 100000 [] [x01; x02]).
  reflexivity.
Defined.

(** ** Sequences *)

Section SequenceFacts.

Variable A : Type.
Variable eq_dec : forall x y : A, {x = y} + {x <> y}.

Lemma startswith_app prefix rest : startswith eq_dec prefix (prefix ++ rest) = true.
Proof.
  induction prefix as [|p prefix IH]; simpl; [reflexivity|].
  destruct (eq_dec p p); [exact IH | congruence].
Qed.

Lemma startswith_true prefix s :
  startswith eq_dec prefix s = true -> s = prefix ++ skipn (length prefix) s.
Proof.
  revert s. induction prefix as [|p prefix IH]; intros [|c s] H; simpl in *;
    try reflexivity; try discriminate.
  destruct (eq_dec p c) as [->|]; [|discriminate].
  f_equal. apply IH. exact H.
Qed.

Lemma startswith_iff prefix s :
  startswith eq_dec prefix s = true <-> exists rest, s = prefix ++ rest.
Proof.
  split.
  - intros H. eexists. apply startswith_true. exact H.
  - intros [rest ->]. apply startswith_app.
Qed.

Lemma occurs_at_startswith (sub s : list A) i :
  occurs_at sub s i <->
  (i <= length s)%nat /\ startswith eq_dec sub (skipn i s) = true.
Proof.
  split.
  - intros (pre & post & -> & <-). split.
    + rewrite length_app. lia.
    + rewrite skipn_app, skipn_all, Nat.sub_diag. simpl.
      apply startswith_app.
  - intros [Hi H]. apply startswith_true in H.
    exists (firstn i s), (skipn (length sub) (skipn i s)). split.
    + rewrite <- H. symmetry. apply firstn_skipn.
    + rewrite length_firstn. lia.
Qed.

Lemma occurs_at_cons (sub : list A) c s i :
  occurs_at sub (c :: s) (S i) <-> occurs_at sub s i.
Proof.
  rewrite !occurs_at_startswith. simpl. split; intros [H1 H2]; split; auto; lia.
Qed.

(** [find] returns the lowest index of an occurrence, and [-1] exactly
    when there is none. *)
Lemma find_from_spec (sub s : list A) : forall start,
  (find_from eq_dec start sub s = -1 /\ forall i, ~ occurs_at sub s i)%Z \/
  (exists i, find_from eq_dec start sub s = (start + Z.of_nat i)%Z /\
             occurs_at sub s i /\
             forall j, (j < i)%nat -> ~ occurs_at sub s j) \/
  (start < 0)%Z.
Proof.
  induction s as [|c s IH]; intros start; simpl.
  - destruct (startswith eq_dec sub []) eqn:E.
    + right. left. exists 0%nat. split; [lia|]. split.
      * apply occurs_at_startswith. simpl. auto.
      * intros j Hj. lia.
    + left. split; [reflexivity|]. intros i Hi.
      apply occurs_at_startswith in Hi. destruct Hi as [Hi Hs].
      simpl in Hi. replace i with 0%nat in Hs by lia. simpl in Hs. congruence.
  - destruct (startswith eq_dec sub (c :: s)) eqn:E.
    + right. left. exists 0%nat. split; [lia|]. split.
      * apply occurs_at_startswith. simpl. split; [lia | exact E].
      * intros j Hj. lia.
    + destruct (Z.ltb_spec start 0) as [Hneg|Hpos]; [right; right; exact Hneg|].
      destruct (IH (start + 1)%Z) as [[H1 H2] | [(i & H1 & H2 & H3) | H]];
        [| |lia].
      * left. split; [exact H1|]. intros [|i] Hi.
        -- apply occurs_at_startswith in Hi. simpl in Hi. destruct Hi. congruence.
        -- apply occurs_at_cons in Hi. exact (H2 i Hi).
      * right. left. exists (S i). split; [lia|]. split.
        -- apply occurs_at_cons. exact H2.
        -- intros [|j] Hj Ho.
           ++ apply occurs_at_startswith in Ho. simpl in Ho. destruct Ho. congruence.
           ++ apply occurs_at_cons in Ho. apply (H3 j); [lia | exact Ho].
Qed.

Lemma find_spec (s sub : list A) :
  (find eq_dec s sub = (-1)%Z /\ forall i, ~ occurs_at sub s i) \/
  (exists i, find eq_dec s sub = Z.of_nat i /\
             occurs_at sub s i /\
             forall j, (j < i)%nat -> ~ occurs_at sub s j).
Proof.
  unfold find. destruct (find_from_spec sub s 0) as [H | [H | H]];
    [left; exact H | right; exact H | lia].
Qed.

End SequenceFacts.

(** ** Streams *)

Lemma read_as_unread n s :
  exists s', read n s = (firstn n (unread s), s') /\
             unread s' = skipn n (unread s) /\
             getvalue s' = getvalue s /\
             tell s' = (tell s + length (firstn n (unread s)))%nat.
Proof.
  exists (snd (read n s)). destruct (read_unread n s) as (H1 & H2 & H3 & H4).
  repeat split; auto.
Qed.

(** ** [decompress_object] *)

Section DecompressObject.

Context {zlib : Zlib}.

Lemma decompress_object_loop_step size decompressor stream compressed_data :
  decompress_object_loop size decompressor stream compressed_data =
  match read size stream with
  | ([], stream') => (compressed_data, stream')
  | (c :: chunk, stream') =>
      match Decompress_decompress decompressor (c :: chunk) with
      | None => (compressed_data ++ c :: chunk, stream')
      | Some decompressor' =>
          decompress_object_loop size decompressor' stream'
            (compressed_data ++ c :: chunk)
      end
  end.
Proof.
  rewrite decompress_object_loop_equation_1.
  change (read size stream)
    with (proj1_sig (inspect (read size stream))) at 2.
  destruct (inspect (read size stream)) as [[b s'] E].
  cbn [proj1_sig]. destruct b as [|c chunk].
  - apply decompress_object_loop_clause_1_equation_1.
  - rewrite decompress_object_loop_clause_1_equation_2.
    destruct (Decompress_decompress decompressor (c :: chunk)).
    + apply decompress_object_loop_clause_1_clause_2_equation_1.
    + apply decompress_object_loop_clause_1_clause_2_equation_2.
Qed.

(** What the loop returns is what it was given followed by a prefix of
    the unread bytes, and the stream is left just behind that prefix. The
    prefix is made of whole chunks: it stops short of a multiple of the
    chunk size only at the end of the buffer. *)
Lemma decompress_object_loop_spec (size : nat) (Hsize : (0 < size)%nat)
    (n : nat) :
  forall decompressor stream compressed_data,
  (remaining stream <= n)%nat ->
  exists taken stream',
    decompress_object_loop size decompressor stream compressed_data
    = (compressed_data ++ taken, stream') /\
    unread stream = taken ++ unread stream' /\
    getvalue stream' = getvalue stream /\
    tell stream' = (tell stream + length taken)%nat /\
    (unread stream' = [] \/
     exists k, (0 < k)%nat /\ length taken = (k * size)%nat).
Proof.
  induction n as [|n IH]; intros d stream data Hn;
    rewrite decompress_object_loop_step;
    destruct (read_as_unread size stream) as (s' & Hr & Hu & Hg & Ht);
    rewrite Hr.
  - unfold remaining in Hn. destruct (unread stream) as [|x u] eqn:E;
      [|simpl in Hn; lia].
    rewrite firstn_nil in *. rewrite skipn_nil in Hu.
    exists [], s'. rewrite app_nil_r, Hu. simpl in *. repeat split; auto.
  - destruct (firstn size (unread stream)) as [|c chunk] eqn:E.
    + assert (Hnil : unread stream = []).
      { destruct (unread stream); [reflexivity|].
        destruct size; [lia | discriminate]. }
      exists [], s'. rewrite app_nil_r, Hu, Hnil, skipn_nil. simpl in *.
      repeat split; auto.
    + assert (Hsplit : unread stream = (c :: chunk) ++ unread s').
      { rewrite Hu, <- E. symmetry. apply firstn_skipn. }
      assert (Hlen : (length (c :: chunk) <= size)%nat).
      { rewrite <- E. apply firstn_le_length. }
      assert (Hcases : unread s' = [] \/ length (c :: chunk) = size).
      { destruct (Nat.le_gt_cases (length (unread stream)) size) as [Hs|Hs].
        - left. rewrite Hu. apply skipn_all2. exact Hs.
        - right. rewrite <- E. apply firstn_length_le. lia. }
      destruct (Decompress_decompress d (c :: chunk)) as [d'|].
      * destruct (IH d' s' (data ++ c :: chunk)) as (t & s'' & Hl & Hus & Hgs & Hts & Hk).
        { unfold remaining in *. rewrite Hsplit in Hn. rewrite length_app in Hn.
          simpl in *. lia. }
        exists ((c :: chunk) ++ t), s''. rewrite Hl, <- app_assoc.
        split; [reflexivity|]. split; [rewrite Hsplit, Hus, <- app_assoc; reflexivity|].
        split; [congruence|]. split.
        { rewrite Hts, Ht, length_app. lia. }
        destruct Hk as [Hk | (k & Hk0 & Hk)]; [left; exact Hk|].
        destruct Hcases as [Hc | Hc].
        { rewrite Hc in Hus. destruct t; [|discriminate].
          simpl in Hk. pose proof (Nat.mul_pos_pos k size). lia. }
        right. exists (S k). split; [lia|].
        rewrite length_app, Hk, Hc. simpl. lia.
      * exists (c :: chunk), s'. split; [reflexivity|]. split; [exact Hsplit|].
        split; [exact Hg|]. split; [exact Ht|].
        destruct Hcases as [Hc | Hc]; [left; exact Hc|].
        right. exists 1%nat. split; [lia|]. rewrite Hc. lia.
Qed.

Lemma decompress_object_spec stream :
  exists taken stream',
    decompress_object stream = (taken, stream') /\
    unread stream = taken ++ unread stream' /\
    getvalue stream' = getvalue stream /\
    tell stream' = (tell stream + length taken)%nat /\
    (unread stream' = [] \/
     exists k, (0 < k)%nat /\ length taken = (k * chunk_size)%nat).
Proof.
  unfold decompress_object.
  destruct (@decompress_object_loop_spec _ chunk_size_pos _ decompressobj stream []
              (le_n _))
    as (t & s' & H). exists t, s'. exact H.
Qed.

(** On a stream with at most one chunk left, [decompress_object] returns
    all of it, whatever the decompressor makes of it. *)
Lemma decompress_object_short stream :
  (remaining stream <= chunk_size)%nat ->
  exists stream',
    decompress_object stream = (unread stream, stream') /\
    unread stream' = [] /\
    getvalue stream' = getvalue stream.
Proof.
  intros Hshort.
  destruct (decompress_object_spec stream) as (t & s' & H & Hu & Hg & Ht & Hk).
  exists s'. destruct Hk as [Hk | (k & Hk0 & Hk)].
  - rewrite Hk, app_nil_r in Hu. rewrite Hu. auto.
  - assert (Hl : length (unread stream) = (length t + length (unread s'))%nat)
      by (rewrite Hu, length_app; reflexivity).
    unfold remaining in Hshort.
    pose proof chunk_size_pos as Hpos.
    assert (k = 1%nat) by nia. subst k.
    assert (Hnil : unread s' = [])
      by (destruct (unread s'); [reflexivity | simpl length in Hl; lia]).
    rewrite Hnil, app_nil_r in Hu. rewrite Hu. auto.
Qed.

(** The result depends on the unread bytes only. *)
Lemma decompress_object_unread stream1 stream2 :
  unread stream1 = unread stream2 ->
  fst (decompress_object stream1) = fst (decompress_object stream2) /\
  unread (snd (decompress_object stream1))
  = unread (snd (decompress_object stream2)).
Proof.
  unfold decompress_object. generalize decompressobj, (@nil byte).
  remember (remaining stream1) as n eqn:Hn.
  assert (Hle : (remaining stream1 <= n)%nat) by lia. clear Hn.
  revert stream1 stream2 Hle.
  induction n as [|n IH]; intros s1 s2 Hle d data Hu;
    rewrite (decompress_object_loop_step _ d s1),
      (decompress_object_loop_step _ d s2);
    destruct (read_as_unread chunk_size s1) as (s1' & Hr1 & Hu1 & _);
    destruct (read_as_unread chunk_size s2) as (s2' & Hr2 & Hu2 & _);
    rewrite Hr1, Hr2; rewrite <- Hu in Hu2 |- *;
    assert (Hlen : (length (firstn chunk_size (unread s1))
                    + length (unread s1') = remaining s1)%nat)
      by (unfold remaining; rewrite Hu1, <- length_app, firstn_skipn;
          reflexivity);
    destruct (firstn chunk_size (unread s1)) as [|c chunk] eqn:E;
    try (simpl; rewrite Hu1, Hu2; auto; fail).
  - simpl in Hlen. lia.
  - destruct (Decompress_decompress d (c :: chunk)) as [d'|].
    + apply IH; [simpl in Hlen; unfold remaining in *; lia | congruence].
    + simpl. rewrite Hu1, Hu2. auto.
Qed.

End DecompressObject.

(** ** Which exceptions a call can raise *)

Lemma raises_only_Ok {A} P (a : A) : raises_only P (Ok a).
Proof. intros e H. discriminate. Qed.

Lemma raises_only_Raise {A} (P : exception -> Prop) e :
  P e -> raises_only P (@Raise A e).
Proof. intros H e' E. inversion E. subst. exact H. Qed.

Lemma raises_only_bind {A B} P (m : result A) (k : A -> result B) :
  raises_only P m -> (forall a, m = Ok a -> raises_only P (k a)) ->
  raises_only P (bind m k).
Proof.
  intros Hm Hk e. destruct m as [a|e']; simpl.
  - apply Hk. reflexivity.
  - intros E. apply Hm. inversion E. reflexivity.
Qed.

Lemma parse_object_header_loop_raises (n : nat) :
  forall stream first_byte size shift,
  (remaining stream <= n)%nat ->
  raises_only (fun e => e = TypeError)
    (parse_object_header_loop stream first_byte size shift).
Proof.
  induction n as [|n IH]; intros s fb size shift Hn;
    rewrite parse_object_header_loop_step;
    destruct (N.land fb 128 =? 0); try apply raises_only_Ok;
    destruct (read 1 s) as [b s'] eqn:Hr;
    destruct b as [|c [|? ?]]; try (apply raises_only_Raise; reflexivity).
  - apply read_one_remaining in Hr. lia.
  - apply IH. apply read_one_remaining in Hr. lia.
Qed.

Lemma parse_object_header_raises stream :
  raises_only (fun e => e = TypeError) (parse_object_header stream).
Proof.
  unfold parse_object_header. destruct (read 1 stream) as [b s].
  apply raises_only_bind.
  - destruct b as [|c [|? ?]]; simpl;
      try (apply raises_only_Raise; reflexivity); apply raises_only_Ok.
  - intros fb _. apply raises_only_bind.
    + eapply parse_object_header_loop_raises. apply le_n.
    + intros [size s'] _. apply raises_only_Ok.
Qed.

Lemma pack_B_raises v : raises_only (fun e => e = StructError) (pack_B v).
Proof.
  unfold pack_B. destruct (Byte.of_N v);
    [apply raises_only_Ok | apply raises_only_Raise; reflexivity].
Qed.

Lemma write_object_header_loop_raises (n : nat) :
  forall stream header size,
  (N.to_nat (N.size size) <= n)%nat ->
  raises_only (fun e => e = StructError)
    (write_object_header_loop stream header size).
Proof.
  induction n as [|n IH]; intros stream header size Hn;
    rewrite write_object_header_loop_step;
    destruct (N.eqb_spec size 0) as [->|Hs]; try apply raises_only_Ok.
  - destruct size; simpl in *; [congruence | lia].
  - apply raises_only_bind; [apply pack_B_raises|].
    intros b _. apply IH. pose proof (shiftr_7_lt Hs). lia.
Qed.

Lemma write_object_header_raises stream object_type size :
  raises_only (fun e => e = StructError)
    (write_object_header stream object_type size).
Proof.
  unfold write_object_header. apply raises_only_bind.
  - eapply write_object_header_loop_raises. apply le_n.
  - intros [s h] _. apply raises_only_bind; [apply pack_B_raises|].
    intros b _. apply raises_only_Ok.
Qed.

Lemma modify_commit_object_raises object_data new_commit_field :
  raises_only (fun e => e = UnicodeDecodeError \/ e = UnicodeEncodeError)
    (modify_commit_object object_data new_commit_field).
Proof.
  unfold modify_commit_object, decode_utf8, encode_utf8.
  apply raises_only_bind.
  - destruct (utf8_decode object_data);
      [apply raises_only_Ok | apply raises_only_Raise; auto].
  - intros s _.
    match goal with |- raises_only _ (match ?x with _ => _ end) =>
      destruct x end;
      [apply raises_only_Ok | apply raises_only_Raise; auto].
Qed.

Lemma raises_only_weaken {A} (P Q : exception -> Prop) (r : result A) :
  (forall e, P e -> Q e) -> raises_only P r -> raises_only Q r.
Proof. intros H Hr e E. apply H, Hr, E. Qed.

Lemma unpack_I_raises b : raises_only (fun e => e = StructError) (unpack_I b).
Proof.
  destruct b as [|? [|? [|? [|? [|? ?]]]]]; simpl;
    try (apply raises_only_Raise; reflexivity); apply raises_only_Ok.
Qed.

Lemma pack_I_raises v : raises_only (fun e => e = StructError) (pack_I v).
Proof.
  unfold pack_I. destruct (v <? 2 ^ 32);
    [apply raises_only_Ok | apply raises_only_Raise; reflexivity].
Qed.

Ltac not_value_error :=
  let e := fresh "e" in let H := fresh "H" in let msg := fresh "msg" in
  let E := fresh "E" in
  intros e H msg E; subst e; repeat (destruct H as [H|H]); discriminate H.

Section PackfileFacts.

Context {zlib : Zlib}.

Lemma process_object_raises stream out new_commit_field :
  raises_only not_ValueError (process_object stream out new_commit_field).
Proof.
  unfold process_object. apply raises_only_bind.
  - eapply raises_only_weaken; [|apply parse_object_header_raises].
    not_value_error.
  - intros [[t sz] s] _. destruct (decompress_object s) as [data s'].
    apply raises_only_bind.
    + destruct (zlib_decompress data);
        [apply raises_only_Ok | apply raises_only_Raise; intros msg; discriminate].
    + intros d _. apply raises_only_bind.
      * destruct (t =? 1); [|apply raises_only_Ok].
        eapply raises_only_weaken; [|apply modify_commit_object_raises].
        not_value_error.
      * intros d' _. apply raises_only_bind.
        -- eapply raises_only_weaken; [|apply write_object_header_raises].
           not_value_error.
        -- intros o _. apply raises_only_Ok.
Qed.

Lemma process_objects_raises count : forall stream out new_commit_field,
  raises_only not_ValueError (process_objects count stream out new_commit_field).
Proof.
  induction count as [|count IH]; intros stream out new; simpl.
  - apply raises_only_Ok.
  - apply raises_only_bind; [apply process_object_raises|].
    intros [s o] _. apply IH.
Qed.

End PackfileFacts.

(** ** The top level: marker, header, trailer *)

Lemma digest_length data : length (SHA1.digest data) = 20%nat.
Proof.
  unfold SHA1.digest.
  destruct (SHA1.blocks _ _ _) as [[[[h0 h1] h2] h3] h4]. reflexivity.
Qed.

Lemma occurs_at_split (sub s : bytes) i :
  occurs_at sub s i ->
  exists post, firstn i s ++ sub ++ post = s /\ skipn i s = sub ++ post.
Proof.
  intros (pre & post & -> & <-). exists post.
  rewrite firstn_app, firstn_all, Nat.sub_diag, skipn_app, skipn_all,
    Nat.sub_diag. simpl. rewrite app_nil_r. auto.
Qed.

Lemma write_object_header_loop_appends (n : nat) :
  forall stream header size stream' header',
  (N.to_nat (N.size size) <= n)%nat ->
  write_object_header_loop stream header size = Ok (stream', header') ->
  exists emitted, stream' = stream ++ emitted.
Proof.
  induction n as [|n IH]; intros stream header size stream' header' Hn;
    rewrite write_object_header_loop_step;
    destruct (N.eqb_spec size 0) as [->|Hs]; intros H;
    try (inversion H; exists []; rewrite app_nil_r; reflexivity).
  - destruct size; simpl in *; [congruence | lia].
  - apply bind_Ok in H. destruct H as (b & _ & H).
    apply IH in H; [|pose proof (shiftr_7_lt Hs); lia].
    destruct H as (e & ->). exists (b ++ e). symmetry; apply app_assoc.
Qed.

Lemma write_object_header_appends stream object_type size stream' :
  write_object_header stream object_type size = Ok stream' ->
  exists header, stream' = stream ++ header.
Proof.
  unfold write_object_header. intros H.
  apply bind_Ok in H. destruct H as ([s h] & Hl & H).
  apply bind_Ok in H. destruct H as (b & _ & H). inversion H.
  apply write_object_header_loop_appends with (n := N.to_nat (N.size (N.shiftr size 4)))
    in Hl; [|apply le_n].
  destruct Hl as (e & ->). exists (e ++ b). symmetry; apply app_assoc.
Qed.

Section TopLevel.

Context {zlib : Zlib}.

Lemma modify_push_request_not_found binary_data new_commit_field :
  find Byte.byte_eq_dec binary_data PACK = (-1)%Z ->
  modify_push_request binary_data new_commit_field
  = Raise (ValueError "PACK section not found in the push request").
Proof. intros H. unfold modify_push_request. rewrite H. reflexivity. Qed.

(** With the marker found at index [i]: no [ValueError] is raised, and a
    result is the bytes before the marker, the rewritten packfile, and
    the checksum of that packfile. *)
Lemma modify_push_request_found binary_data new_commit_field i :
  find Byte.byte_eq_dec binary_data PACK = Z.of_nat i ->
  occurs_at PACK binary_data i ->
  raises_only not_ValueError
    (modify_push_request binary_data new_commit_field) /\
  forall out, modify_push_request binary_data new_commit_field = Ok out ->
    exists objects,
      out = firstn i binary_data ++ (PACK ++ objects)
            ++ calculate_checksum (PACK ++ objects).
Proof.
  intros Hfind Hocc. destruct (occurs_at_split Hocc) as (post & _ & Hskip).
  unfold modify_push_request. rewrite Hfind.
  replace (Z.of_nat i =? -1)%Z with false by (symmetry; apply Z.eqb_neq; lia).
  rewrite Nat2Z.id, Hskip.
  change (read 4 (BytesIO_open (PACK ++ post)))
    with (PACK, mkBytesIO (PACK ++ post) 4).
  cbn beta iota. change (negb (bytes_eqb PACK PACK)) with false. cbn iota.
  destruct (read 4 _) as [b1 s1].
  destruct (read 4 s1) as [b2 s2]. split.
  - apply raises_only_bind.
    { eapply raises_only_weaken; [|apply unpack_I_raises]. not_value_error. }
    intros version _. apply raises_only_bind.
    { eapply raises_only_weaken; [|apply unpack_I_raises]. not_value_error. }
    intros num _. apply raises_only_bind.
    { eapply raises_only_weaken; [|apply pack_I_raises]. not_value_error. }
    intros bv _. apply raises_only_bind.
    { eapply raises_only_weaken; [|apply pack_I_raises]. not_value_error. }
    intros bn _. apply raises_only_bind; [apply process_objects_raises|].
    intros [s o] _. apply raises_only_Ok.
  - intros out H.
    apply bind_Ok in H. destruct H as (version & _ & H).
    apply bind_Ok in H. destruct H as (num & _ & H).
    apply bind_Ok in H. destruct H as (bv & _ & H).
    apply bind_Ok in H. destruct H as (bn & _ & H).
    apply bind_Ok in H. destruct H as ([s o] & Hobjs & H).
    inversion H. subst out. clear H.
    assert (Hpre : forall count s0 o0 s' o',
               process_objects count s0 o0 new_commit_field = Ok (s', o') ->
               exists added, o' = o0 ++ added).
    { clear. induction count as [|count IH]; intros s0 o0 s' o' H; simpl in H.
      - inversion H. exists []. rewrite app_nil_r. reflexivity.
      - apply bind_Ok in H. destruct H as ([s1 o1] & H1 & H).
        apply IH in H. destruct H as (a2 & ->).
        unfold process_object in H1.
        apply bind_Ok in H1. destruct H1 as ([[t sz] s2] & _ & H1).
        destruct (decompress_object s2) as [cd s3].
        apply bind_Ok in H1. destruct H1 as (d & _ & H1).
        apply bind_Ok in H1. destruct H1 as (d' & _ & H1).
        apply bind_Ok in H1. destruct H1 as (o2 & Hw & H1).
        inversion H1. subst.
        destruct (write_object_header_appends Hw) as (hdr & ->).
        exists ((hdr ++ zlib_compress d') ++ a2).
        rewrite <- !app_assoc. reflexivity. }
    apply Hpre in Hobjs. destruct Hobjs as (added & ->).
    exists (bv ++ bn ++ added). simpl. rewrite <- !app_assoc. reflexivity.
Qed.

End TopLevel.

Section TopLevelClaims.

Context {zlib : Zlib}.

(** C3 (as amended): on success the output ends with a 20-byte digest
    that is the SHA-1 of the output packfile, i.e. of every output byte
    from the [PACK] marker up to the digest. The bytes the output carries
    before the marker (the request's metadata, copied from the input) are
    not part of what is digested. *)
Theorem trailer_is_digest_of_packfile binary_data new_commit_field out :
  modify_push_request binary_data new_commit_field = Ok out ->
  exists metadata packfile digest,
    out = metadata ++ packfile ++ digest /\
    metadata = firstn (Z.to_nat (find Byte.byte_eq_dec binary_data PACK))
                 binary_data /\
    firstn 4 packfile = PACK /\
    length digest = 20%nat /\
    digest = calculate_checksum packfile.
Proof.
  intros H.
  destruct (find_spec Byte.byte_eq_dec binary_data PACK)
    as [[Hf _] | (i & Hf & Hocc & _)].
  - rewrite (modify_push_request_not_found _ Hf) in H. discriminate.
  - destruct (modify_push_request_found new_commit_field Hf Hocc) as [_ Hok].
    destruct (Hok out H) as (objects & ->).
    exists (firstn i binary_data), (PACK ++ objects),
      (calculate_checksum (PACK ++ objects)).
    rewrite Hf, Nat2Z.id. repeat split. apply digest_length.
Qed.

(** C8: the request is rejected with "PACK section not found" exactly
    when the marker occurs nowhere in the decoded request; and when it
    occurs, first at index [i], a result starts with the [i] bytes that
    precede it in the request. *)
Theorem marker_not_found_iff binary_data new_commit_field :
  (modify_push_request binary_data new_commit_field
   = Raise (ValueError "PACK section not found in the push request")
   <-> forall i, ~ occurs_at PACK binary_data i) /\
  (forall i out,
     occurs_at PACK binary_data i ->
     (forall j, (j < i)%nat -> ~ occurs_at PACK binary_data j) ->
     modify_push_request binary_data new_commit_field = Ok out ->
     exists rest, out = firstn i binary_data ++ rest).
Proof.
  destruct (find_spec Byte.byte_eq_dec binary_data PACK)
    as [[Hf Hnone] | (i & Hf & Hocc & Hfirst)].
  - split.
    + split; [intros _; exact Hnone|].
      intros _. apply modify_push_request_not_found. exact Hf.
    + intros i out Hocc. exfalso. exact (Hnone i Hocc).
  - destruct (modify_push_request_found new_commit_field Hf Hocc)
      as [Hraise Hok].
    split.
    + split.
      * intros H. exfalso. exact (Hraise _ H _ eq_refl).
      * intros H. exfalso. exact (H i Hocc).
    + intros i' out Hocc' Hfirst' H.
      assert (i' = i).
      { destruct (Nat.lt_trichotomy i' i) as [Hlt | [Heq | Hgt]];
          [exfalso; exact (Hfirst i' Hlt Hocc') | exact Heq
          | exfalso; exact (Hfirst' i Hgt Hocc)]. }
      subst i'. destruct (Hok out H) as (objects & ->). eauto.
Qed.

(** C10: the "Invalid PACK file format" branch cannot be taken. Whenever
    the search finds the marker, the four bytes read back at that index
    are the marker, and no request makes the function raise that
    error. *)
Theorem invalid_magic_unreachable binary_data new_commit_field :
  (find Byte.byte_eq_dec binary_data PACK <> (-1)%Z ->
   fst (read 4 (BytesIO_open
          (skipn (Z.to_nat (find Byte.byte_eq_dec binary_data PACK))
                 binary_data))) = PACK) /\
  modify_push_request binary_data new_commit_field
  <> Raise (ValueError "Invalid PACK file format").
Proof.
  destruct (find_spec Byte.byte_eq_dec binary_data PACK)
    as [[Hf Hnone] | (i & Hf & Hocc & Hfirst)].
  - split; [congruence|].
    rewrite (modify_push_request_not_found _ Hf). discriminate.
  - split.
    + intros _. rewrite Hf, Nat2Z.id.
      destruct (occurs_at_split Hocc) as (post & _ & ->). reflexivity.
    + destruct (modify_push_request_found new_commit_field Hf Hocc)
        as [Hraise _].
      intros H. exact (Hraise _ H _ eq_refl).
Qed.

End TopLevelClaims.

Lemma trailer_is_digest_of_packfile_witness :
  exists out,
    modify_push_request (zlib := Example.zlib)
      (Example.flush_pkt ++ Example.one_commit) Example.new_commit_field
    = Ok out /\
    exists metadata packfile digest,
      out = metadata ++ packfile ++ digest /\
      metadata = firstn (Z.to_nat (find Byte.byte_eq_dec
                   (Example.flush_pkt ++ Example.one_commit) PACK))
                   (Example.flush_pkt ++ Example.one_commit) /\
      firstn 4 packfile = PACK /\
      length digest = 20%nat /\
      digest = calculate_checksum packfile.
Proof.
  eexists. split; [vm_compute; reflexivity|].
  apply (@trailer_is_digest_of_packfile Example.zlib
           (Example.flush_pkt ++ Example.one_commit) Example.new_commit_field).
  vm_compute. reflexivity.
Defined.

(** C3, as stated, fails: a request whose packfile follows a flush packet.
    The last 20 bytes of the output are not the SHA-1 of the bytes of the
    output that precede them. *)
Lemma trailer_not_digest_of_whole_output :
  exists out,
    modify_push_request (zlib := Example.zlib)
      (Example.flush_pkt ++ Example.empty_pack) Example.new_commit_field
    = Ok out /\
    skipn (length out - 20) out
    <> calculate_checksum (firstn (length out - 20) out).
Proof.
  eexists. split; [vm_compute; reflexivity|].
  vm_compute. intros H. discriminate H.
Qed.

Lemma invalid_magic_unreachable_witness :
  find Byte.byte_eq_dec (Example.flush_pkt ++ Example.one_commit) PACK
  <> (-1)%Z /\
  fst (read 4 (BytesIO_open
         (skipn (Z.to_nat (find Byte.byte_eq_dec
                   (Example.flush_pkt ++ Example.one_commit) PACK))
                (Example.flush_pkt ++ Example.one_commit)))) = PACK.
Proof.
  split; [vm_compute; discriminate|].
  apply (proj1 (@invalid_magic_unreachable Example.zlib
           (Example.flush_pkt ++ Example.one_commit) Example.new_commit_field)).
  vm_compute. discriminate.
Defined.

Lemma marker_not_found_iff_witness :
  exists out,
    modify_push_request (zlib := Example.zlib)
      (Example.flush_pkt ++ Example.one_commit) Example.new_commit_field
    = Ok out /\
    exists rest, out = firstn 4 (Example.flush_pkt ++ Example.one_commit) ++ rest.
Proof.
  eexists. split; [vm_compute; reflexivity|].
  apply (proj2 (@marker_not_found_iff Example.zlib
           (Example.flush_pkt ++ Example.one_commit) Example.new_commit_field)).
  - exists Example.flush_pkt, (skipn 4 Example.one_commit).
    split; vm_compute; reflexivity.
  - intros j Hj Ho.
    apply (occurs_at_startswith Byte.byte_eq_dec) in Ho. destruct Ho as [_ Ho].
    destruct j as [|[|[|[|j]]]]; try (vm_compute in Ho; discriminate Ho). lia.
  - vm_compute. reflexivity.
Defined.

(** ** One object record *)

Lemma parse_object_header_loop_remaining (n : nat) :
  forall stream first_byte size shift size' stream',
  (remaining stream <= n)%nat ->
  parse_object_header_loop stream first_byte size shift = Ok (size', stream') ->
  (remaining stream' <= remaining stream)%nat.
Proof.
  induction n as [|n IH]; intros s fb size shift size' s' Hn;
    rewrite parse_object_header_loop_step;
    destruct (N.land fb 128 =? 0); intros H;
    try (inversion H; subst; apply le_n);
    destruct (read 1 s) as [b s1] eqn:Hr;
    destruct b as [|c [|? ?]]; try discriminate;
    pose proof (read_one_remaining Hr) as Hlt.
  - lia.
  - apply IH in H; lia.
Qed.

Lemma parse_object_header_Ok stream object_type size stream' :
  parse_object_header stream = Ok (object_type, size, stream') ->
  object_type < 8 /\ (remaining stream' < remaining stream)%nat.
Proof.
  unfold parse_object_header. destruct (read 1 stream) as [b s1] eqn:Hr.
  intros H. apply bind_Ok in H. destruct H as (fb & Hord & H).
  apply bind_Ok in H. destruct H as ([sz s2] & Hl & H). inversion H. subst.
  destruct b as [|c [|? ?]]; try discriminate.
  split.
  - change 7 with (N.ones 3). rewrite N.land_ones.
    apply N.mod_lt. discriminate.
  - pose proof (read_one_remaining Hr).
    apply parse_object_header_loop_remaining with (n := remaining s1) in Hl;
      [lia | apply le_n].
Qed.

Lemma parse_object_header_eof stream :
  unread stream = [] -> parse_object_header stream = Raise TypeError.
Proof.
  intros H. unfold parse_object_header, read. rewrite H. reflexivity.
Qed.

(** A header for a type below 8 is always written. *)
Lemma write_object_header_small_type out object_type size :
  object_type < 8 ->
  exists header, write_object_header out object_type size = Ok (out ++ header).
Proof.
  intros Ht.
  destruct (@loops_inverse _ (N.shiftr size 4)
              (N.lor (N.shiftl object_type 4) (N.land size 15)) out
              (le_n _) (first_header_bound size Ht))
    as (c & w & Hw & _).
  exists (c :: w). exact Hw.
Qed.

Section ObjectRecord.

Context {zlib : Zlib}.

(** What [process_object] computes, once the header is parsed. *)
Lemma process_object_parsed stream out new_commit_field object_type size s1 :
  parse_object_header stream = Ok (object_type, size, s1) ->
  process_object stream out new_commit_field =
  (object_data <- match zlib_decompress (fst (decompress_object s1)) with
                  | Some d => Ok d
                  | None => Raise ZlibError
                  end ;;
   object_data <- (if object_type =? 1
                   then modify_commit_object object_data new_commit_field
                   else Ok object_data) ;;
   modified_packfile <-
     write_object_header out object_type (N.of_nat (length object_data)) ;;
   Ok (snd (decompress_object s1),
       modified_packfile ++ zlib_compress object_data)).
Proof.
  intros H. unfold process_object. rewrite H. cbn [bind].
  destruct (decompress_object s1) as [cd s2]. reflexivity.
Qed.

(** C7: an object that is not a commit passes through. With the header
    parsed as a type other than 1, [process_object] succeeds as soon as
    the compressed data decompresses, whatever the payload is (it is not
    decoded, so it need not be text) and whatever the replacement text:
    the stream is left where [decompress_object] left it, and the output
    gains the header for the length of the decompressed payload followed
    by the compression of that very payload. When the data does not
    decompress, [zlib.error] is raised. *)
Theorem non_commit_object_passes_through stream out object_type size s1 :
  parse_object_header stream = Ok (object_type, size, s1) ->
  object_type <> 1 ->
  (forall payload,
     zlib_decompress (fst (decompress_object s1)) = Some payload ->
     exists header,
       write_object_header out object_type (N.of_nat (length payload))
       = Ok (out ++ header) /\
       forall new_commit_field,
         process_object stream out new_commit_field
         = Ok (snd (decompress_object s1),
               out ++ header ++ zlib_compress payload)) /\
  (zlib_decompress (fst (decompress_object s1)) = None ->
   forall new_commit_field,
     process_object stream out new_commit_field = Raise ZlibError).
Proof.
  intros Hparse Htype.
  assert (E : (object_type =? 1) = false) by (apply N.eqb_neq; exact Htype).
  destruct (parse_object_header_Ok Hparse) as [Ht _].
  split.
  - intros payload Hd.
    destruct (write_object_header_small_type out (N.of_nat (length payload)) Ht)
      as (header & Hw).
    exists header. split; [exact Hw|]. intros new.
    rewrite (process_object_parsed _ _ Hparse), Hd, E. cbn [bind].
    rewrite Hw. cbn [bind]. rewrite <- app_assoc. reflexivity.
  - intros Hd new. rewrite (process_object_parsed _ _ Hparse), Hd.
    reflexivity.
Qed.

(** C9: the size written is the length of the payload written. When
    [process_object] succeeds, the record it appends is a header that
    decodes to the parsed type and the length of the payload [object_data]
    (the decompressed payload, rewritten when the object is a commit),
    followed by the compression of that payload. The size [declared] in
    the input header plays no part: the same input with any other declared
    size gives the same output. *)
Theorem emitted_size_is_payload_length stream out new_commit_field
    stream' out' :
  process_object stream out new_commit_field = Ok (stream', out') ->
  exists object_type declared s1 decompressed object_data header,
    parse_object_header stream = Ok (object_type, declared, s1) /\
    zlib_decompress (fst (decompress_object s1)) = Some decompressed /\
    (if object_type =? 1
     then modify_commit_object decompressed new_commit_field
     else Ok decompressed) = Ok object_data /\
    out' = out ++ header ++ zlib_compress object_data /\
    (forall rest s, unread s = header ++ rest ->
       exists s', parse_object_header s
                  = Ok (object_type, N.of_nat (length object_data), s') /\
                  unread s' = rest) /\
    (forall stream2 declared2 s2,
       parse_object_header stream2 = Ok (object_type, declared2, s2) ->
       unread s2 = unread s1 ->
       exists stream2',
         process_object stream2 out new_commit_field = Ok (stream2', out')).
Proof.
  intros H.
  destruct (parse_object_header stream) as [[[t declared] s1]|e] eqn:Hparse;
    [|unfold process_object in H; rewrite Hparse in H; discriminate].
  rewrite (process_object_parsed _ _ Hparse) in H.
  apply bind_Ok in H. destruct H as (d & Hd & H).
  apply bind_Ok in H. destruct H as (d' & Hd' & H).
  apply bind_Ok in H. destruct H as (o & Hw & H). inversion H. subst.
  destruct (parse_object_header_Ok Hparse) as [Ht _].
  destruct (written_header_decodes Ht Hw) as (header & -> & Hdec).
  exists t, declared, s1, d, d', header.
  split; [reflexivity|].
  split; [destruct (zlib_decompress _); [inversion Hd; reflexivity | discriminate]|].
  split; [exact Hd'|].
  split; [rewrite <- app_assoc; reflexivity|].
  split.
  - exact Hdec.
  - intros stream2 declared2 s2 Hparse2 Hu.
    rewrite (process_object_parsed _ _ Hparse2).
    destruct (decompress_object_unread Hu) as [Hfst Hsnd].
    rewrite Hfst, Hd. cbn [bind]. rewrite Hd'. cbn [bind]. rewrite Hw.
    cbn [bind]. eauto.
Qed.

(** On a packfile of at most one chunk, the first object takes all the
    input, so that a second object is never reached: a loop of two or
    more iterations raises, whatever the input and the [zlib]. *)
Lemma process_object_short stream out new_commit_field stream' out' :
  (remaining stream <= chunk_size)%nat ->
  process_object stream out new_commit_field = Ok (stream', out') ->
  unread stream' = [].
Proof.
  intros Hshort H.
  destruct (parse_object_header stream) as [[[t declared] s1]|e] eqn:Hparse;
    [|unfold process_object in H; rewrite Hparse in H; discriminate].
  rewrite (process_object_parsed _ _ Hparse) in H.
  apply bind_Ok in H. destruct H as (d & Hd & H).
  apply bind_Ok in H. destruct H as (d' & Hd' & H).
  apply bind_Ok in H. destruct H as (o & Hw & H). inversion H. subst.
  destruct (parse_object_header_Ok Hparse) as [_ Hlt].
  destruct (@decompress_object_short _ s1) as (s2 & Hdec & Hu & _); [lia|].
  rewrite Hdec. exact Hu.
Qed.

Lemma process_objects_short count stream out new_commit_field :
  (remaining stream <= chunk_size)%nat ->
  exists e,
    process_objects (S (S count)) stream out new_commit_field = Raise e.
Proof.
  intros Hshort. cbn [process_objects].
  destruct (process_object stream out new_commit_field) as [[s1 o1]|e] eqn:H1;
    cbn [bind]; [|eauto].
  apply process_object_short in H1; [|exact Hshort].
  unfold process_object at 1. rewrite (parse_object_header_eof H1).
  cbn [bind]. eauto.
Qed.

End ObjectRecord.

(** ** Runs on concrete packfiles *)

#[local] Existing Instance Example.zlib.

(** Evaluation of every conjunct of a closed goal. *)
Ltac run_all :=
  repeat match goal with |- _ /\ _ => split end; vm_compute; reflexivity.

Lemma non_commit_object_passes_through_witness :
  let s1 := mkBytesIO Example.one_tree 13 in
  parse_object_header (objects_of Example.one_tree) = Ok (2, 13, s1) /\
  2 <> 1 /\
  zlib_decompress (fst (decompress_object s1)) = Some Example.tree_entry /\
  decode_utf8 Example.tree_entry = Raise UnicodeDecodeError /\
  zlib_decompress (zlib_compress Example.tree_entry)
  = Some Example.tree_entry /\
  exists header,
    write_object_header PACK 2 (N.of_nat (length Example.tree_entry))
    = Ok (PACK ++ header) /\
    forall new_commit_field,
      process_object (zlib := Example.zlib) (objects_of Example.one_tree)
        PACK new_commit_field
      = Ok (snd (decompress_object s1),
            PACK ++ header ++ zlib_compress Example.tree_entry).
Proof.
  intros s1.
  assert (Hparse : parse_object_header (objects_of Example.one_tree)
                   = Ok (2, 13, s1)) by (vm_compute; reflexivity).
  assert (Htype : 2 <> 1) by discriminate.
  assert (Hd : zlib_decompress (fst (decompress_object s1))
               = Some Example.tree_entry) by (vm_compute; reflexivity).
  split; [exact Hparse|]. split; [exact Htype|]. split; [exact Hd|].
  split; [vm_compute; reflexivity|]. split; [vm_compute; reflexivity|].
  exact (proj1 (@non_commit_object_passes_through Example.zlib
                  (objects_of Example.one_tree) PACK 2 13 s1 Hparse Htype)
           Example.tree_entry Hd).
Defined.

Lemma emitted_size_is_payload_length_witness :
  exists stream' out',
    process_object (zlib := Example.zlib) (objects_of Example.mis_sized_blob)
      PACK Example.new_commit_field = Ok (stream', out') /\
    exists object_type declared s1 decompressed object_data header,
      parse_object_header (objects_of Example.mis_sized_blob)
      = Ok (object_type, declared, s1) /\
      zlib_decompress (fst (decompress_object s1)) = Some decompressed /\
      (if object_type =? 1
       then modify_commit_object decompressed Example.new_commit_field
       else Ok decompressed) = Ok object_data /\
      out' = PACK ++ header ++ zlib_compress object_data /\
      (forall rest s, unread s = header ++ rest ->
         exists s', parse_object_header s
                    = Ok (object_type, N.of_nat (length object_data), s') /\
                    unread s' = rest) /\
      (forall stream2 declared2 s2,
         parse_object_header stream2 = Ok (object_type, declared2, s2) ->
         unread s2 = unread s1 ->
         exists stream2',
           process_object stream2 PACK Example.new_commit_field
           = Ok (stream2', out')).
Proof.
  eexists. eexists. split; [vm_compute; reflexivity|].
  eapply (@emitted_size_is_payload_length Example.zlib
            (objects_of Example.mis_sized_blob) PACK Example.new_commit_field).
  vm_compute. reflexivity.
Defined.

(** The declared size of that blob is 5, the size written back is 2. *)
Example mis_sized_blob_resized :
  parse_object_header (objects_of Example.mis_sized_blob)
  = Ok (3, 5, mkBytesIO Example.mis_sized_blob 13) /\
  process_object (objects_of Example.mis_sized_blob) []
    Example.new_commit_field
  = Ok (mkBytesIO Example.mis_sized_blob (length Example.mis_sized_blob),
        [x32] ++ StoredZlib.compress Example.blob_text) /\
  parse_object_header (BytesIO_open [x32]) = Ok (3, 2, mkBytesIO [x32] 1).
Proof. run_all. Qed.

(** C1, on a well-formed packfile of two objects, a commit and a blob.
    The commit's compressed stream is the 58 bytes from index 14 on.
    [decompress_object], called there, returns 92 bytes: that stream, the
    whole record of the blob and the trailer, and leaves the stream at its
    end. Parsing the next header there raises [TypeError], whereas at the
    true boundary, index 72, the header of the blob is read. *)
Theorem decompress_object_overruns_boundary :
  parse_object_header (objects_of Example.commit_and_blob)
  = Ok (1, 47, mkBytesIO Example.commit_and_blob 14) /\
  length (StoredZlib.compress Example.commit_text) = 58%nat /\
  decompress_object (mkBytesIO Example.commit_and_blob 14)
  = (skipn 14 Example.commit_and_blob,
     mkBytesIO Example.commit_and_blob (length Example.commit_and_blob)) /\
  length (skipn 14 Example.commit_and_blob) = 92%nat /\
  parse_object_header
    (mkBytesIO Example.commit_and_blob (length Example.commit_and_blob))
  = Raise TypeError /\
  parse_object_header (mkBytesIO Example.commit_and_blob (14 + 58))
  = Ok (3, 2, mkBytesIO Example.commit_and_blob (14 + 58 + 1)).
Proof. run_all. Qed.

(** C2, on the same packfile, which declares two objects: the loop does
    not process two records, the request is rejected with the [TypeError]
    of the second header. *)
Theorem two_object_packfile_rejected :
  firstn 12 Example.commit_and_blob
  = PACK ++ [x00; x00; x00; x02] ++ [x00; x00; x00; x02] /\
  modify_push_request Example.commit_and_blob Example.new_commit_field
  = Raise TypeError.
Proof. run_all. Qed.

(** The same happens for every request whose packfile fits in one chunk
    and declares two objects or more, with any [zlib]. *)
Lemma short_packfile_of_several_objects_rejected (zlib : Zlib)
    new_commit_field count stream :
  (remaining stream <= chunk_size)%nat ->
  forall out s' out',
    process_objects (S (S count)) stream out new_commit_field <> Ok (s', out').
Proof.
  intros Hshort out s' out' H.
  destruct (process_objects_short count out new_commit_field Hshort) as (e & He).
  congruence.
Qed.

(** ** Bytes and the UTF-8 codec *)

Lemma byte_of_N_mod_to_N b : byte_of_N_mod (Byte.to_N b) = b.
Proof.
  unfold byte_of_N_mod. pose proof (Byte.to_N_bounded b).
  rewrite N.mod_small by lia. rewrite Byte.of_to_N. reflexivity.
Qed.

Lemma to_N_byte_of_N_mod n : Byte.to_N (byte_of_N_mod n) = n mod 256.
Proof.
  unfold byte_of_N_mod. destruct (Byte.of_N (n mod 256)) as [b|] eqn:E.
  - apply Byte.to_of_N. exact E.
  - apply Byte.of_N_None_iff in E.
    pose proof (N.mod_upper_bound n 256). lia.
Qed.

Lemma byte_of_N_mod_eq n b : n = Byte.to_N b -> byte_of_N_mod n = b.
Proof. intros ->. apply byte_of_N_mod_to_N. Qed.

Ltac Zify.zify_post_hook ::= Z.to_euclidean_division_equations.

Ltac split_ifs H :=
  repeat match type of H with
         | context [if ?c then _ else _] =>
             let E := fresh "E" in destruct c eqn:E; try discriminate H
         end.

Ltac bool_facts :=
  unfold is_continuation, is_surrogate in *;
  repeat match goal with
         | H : _ && _ = true |- _ => apply andb_true_iff in H; destruct H
         | H : _ && _ = false |- _ => apply andb_false_iff in H
         | H : negb _ = true |- _ => apply negb_true_iff in H
         | H : negb _ = false |- _ => apply negb_false_iff in H
         | H : (_ <? _) = true |- _ => apply N.ltb_lt in H
         | H : (_ <? _) = false |- _ => apply N.ltb_ge in H
         | H : (_ <=? _) = true |- _ => apply N.leb_le in H
         | H : (_ <=? _) = false |- _ => apply N.leb_gt in H
         end.

Lemma option_map_cons_Some (c : N) (o : option str) s :
  option_map (cons c) o = Some s -> exists s', o = Some s' /\ s = c :: s'.
Proof. destruct o; simpl; intros H; inversion H; eauto. Qed.

(** Decoding then encoding gives the bytes back. *)
Lemma utf8_encode_decode (n : nat) : forall b s,
  (length b <= n)%nat -> utf8_decode b = Some s -> utf8_encode s = Some b.
Proof.
  induction n as [|n IH]; intros b s Hn H.
  - destruct b; [|simpl in Hn; lia]. inversion H. reflexivity.
  - destruct b as [|b0 r0]; [inversion H; reflexivity|].
    cbn [utf8_decode] in H. cbv zeta in H.
    pose proof (Byte.to_N_bounded b0) as B0.
    destruct (Byte.to_N b0 <? 128) eqn:E1.
    { apply option_map_cons_Some in H. destruct H as (s' & H & ->).
      apply IH in H; [|simpl in Hn; lia].
      cbn [utf8_encode]. unfold utf8_encode_codepoint. rewrite E1, H.
      rewrite byte_of_N_mod_to_N. reflexivity. }
    destruct (Byte.to_N b0 <? 194) eqn:E2; [discriminate|].
    destruct (Byte.to_N b0 <? 224) eqn:E3.
    { destruct r0 as [|b1 r1]; [discriminate|].
      destruct (is_continuation (Byte.to_N b1)) eqn:C1; [|discriminate].
      apply option_map_cons_Some in H. destruct H as (s' & H & ->).
      apply IH in H; [|simpl in Hn; lia].
      bool_facts. cbn [utf8_encode]. rewrite H. unfold utf8_encode_codepoint.
      set (cp := (Byte.to_N b0 - 192) * 64 + (Byte.to_N b1 - 128)).
      replace (cp <? 128) with false by (symmetry; apply N.ltb_ge; lia).
      replace (cp <? 2048) with true by (symmetry; apply N.ltb_lt; lia).
      rewrite (@byte_of_N_mod_eq _ b0), (@byte_of_N_mod_eq _ b1) by lia.
      reflexivity. }
    destruct (Byte.to_N b0 <? 240) eqn:E4.
    { destruct r0 as [|b1 [|b2 r2]]; try discriminate.
      match type of H with (if ?c then _ else _) = _ =>
        destruct c eqn:C; [|discriminate] end.
      apply option_map_cons_Some in H. destruct H as (s' & H & ->).
      apply IH in H; [|simpl in Hn; lia].
      bool_facts. cbn [utf8_encode]. rewrite H. unfold utf8_encode_codepoint.
      set (cp := (Byte.to_N b0 - 224) * 4096 + (Byte.to_N b1 - 128) * 64
                 + (Byte.to_N b2 - 128)) in *.
      replace (cp <? 128) with false by (symmetry; apply N.ltb_ge; lia).
      replace (cp <? 2048) with false by (symmetry; apply N.ltb_ge; lia).
      replace (cp <? 65536) with true by (symmetry; apply N.ltb_lt; lia).
      unfold is_surrogate.
      match goal with H : _ \/ _ |- _ =>
        rewrite (proj2 (andb_false_iff _ _) H) end.
      rewrite (@byte_of_N_mod_eq _ b0), (@byte_of_N_mod_eq _ b1),
        (@byte_of_N_mod_eq _ b2) by lia.
      reflexivity. }
    destruct (Byte.to_N b0 <? 245) eqn:E5; [|discriminate].
    destruct r0 as [|b1 [|b2 [|b3 r3]]]; try discriminate.
    match type of H with (if ?c then _ else _) = _ =>
      destruct c eqn:C; [|discriminate] end.
    apply option_map_cons_Some in H. destruct H as (s' & H & ->).
    apply IH in H; [|simpl in Hn; lia].
    bool_facts. cbn [utf8_encode]. rewrite H. unfold utf8_encode_codepoint.
    set (cp := (Byte.to_N b0 - 240) * 262144 + (Byte.to_N b1 - 128) * 4096
               + (Byte.to_N b2 - 128) * 64 + (Byte.to_N b3 - 128)) in *.
    replace (cp <? 128) with false by (symmetry; apply N.ltb_ge; lia).
    replace (cp <? 2048) with false by (symmetry; apply N.ltb_ge; lia).
    replace (cp <? 65536) with false by (symmetry; apply N.ltb_ge; lia).
    replace (cp <? 1114112) with true by (symmetry; apply N.ltb_lt; lia).
    rewrite (@byte_of_N_mod_eq _ b0), (@byte_of_N_mod_eq _ b1),
      (@byte_of_N_mod_eq _ b2), (@byte_of_N_mod_eq _ b3) by lia.
    reflexivity.
Qed.

(** ** Replacement *)

Section ReplaceFacts.

Variable A : Type.
Variable eq_dec : forall x y : A, {x = y} + {x <> y}.

Lemma replace_nonempty_step o old' new s :
  replace_nonempty eq_dec o old' new s =
  if startswith eq_dec (o :: old') s
  then new ++ replace_nonempty eq_dec o old' new (skipn (length (o :: old')) s)
  else match s with
       | [] => []
       | c :: s' => c :: replace_nonempty eq_dec o old' new s'
       end.
Proof.
  rewrite replace_nonempty_equation_1.
  change (startswith eq_dec (o :: old') s)
    with (proj1_sig (inspect (startswith eq_dec (o :: old') s))) at 2.
  destruct (inspect (startswith eq_dec (o :: old') s)) as [[|] E];
    cbn [proj1_sig].
  - apply replace_nonempty_clause_1_equation_1.
  - rewrite replace_nonempty_clause_1_equation_2.
    destruct s; reflexivity.
Qed.

Lemma contains_occurs (sub s : list A) :
  contains eq_dec sub s = true <-> exists i, occurs_at sub s i.
Proof.
  induction s as [|c s IH]; simpl.
  - rewrite orb_false_r. split.
    + intros H. exists 0%nat. apply (occurs_at_startswith eq_dec).
      simpl. auto.
    + intros [i Hi]. apply (occurs_at_startswith eq_dec) in Hi.
      destruct Hi as [Hi Hs]. simpl in Hi.
      replace i with 0%nat in Hs by lia. exact Hs.
  - rewrite orb_true_iff, IH. split.
    + intros [H | [i Hi]].
      * exists 0%nat. apply (occurs_at_startswith eq_dec). simpl.
        split; [lia | exact H].
      * exists (S i). apply (occurs_at_cons eq_dec); assumption.
    + intros [[|i] Hi].
      * left. apply (occurs_at_startswith eq_dec) in Hi. apply Hi.
      * right. exists i. apply (occurs_at_cons eq_dec) in Hi. exact Hi.
Qed.

Lemma no_occurrence_tail (sub : list A) c s :
  (forall i, ~ occurs_at sub (c :: s) i) -> forall i, ~ occurs_at sub s i.
Proof.
  intros H i Hi. apply (H (S i)). apply (occurs_at_cons eq_dec); assumption.
Qed.

Lemma no_occurrence_startswith (sub s : list A) :
  (forall i, ~ occurs_at sub s i) -> startswith eq_dec sub s = false.
Proof.
  intros H. destruct (startswith eq_dec sub s) eqn:E; [|reflexivity].
  exfalso. apply (H 0%nat). apply (occurs_at_startswith eq_dec).
  simpl. split; [lia | exact E].
Qed.

(** Without an occurrence nothing is replaced. *)
Lemma replace_nonempty_no_occurrence o old' new s :
  (forall i, ~ occurs_at (o :: old') s i) ->
  replace_nonempty eq_dec o old' new s = s.
Proof.
  induction s as [|c s IH]; intros H; rewrite replace_nonempty_step;
    rewrite (no_occurrence_startswith H); [reflexivity|].
  f_equal. apply IH. eapply no_occurrence_tail. exact H.
Qed.

(** A prefix that runs into an element it does not contain ends before
    that element. *)
Lemma startswith_stops prefix t o rest :
  ~ In o prefix ->
  startswith eq_dec prefix (t ++ o :: rest) = true ->
  startswith eq_dec prefix t = true.
Proof.
  revert t. induction prefix as [|p prefix IH]; intros t Hin H;
    [reflexivity|].
  destruct t as [|c t]; simpl in *.
  - destruct (eq_dec p o) as [->|]; [|discriminate].
    exfalso. apply Hin. left. reflexivity.
  - destruct (eq_dec p c); [|discriminate].
    apply IH; [|exact H]. intros Hi. apply Hin. right. exact Hi.
Qed.

(** An occurrence behind a stretch without one is the first to be
    replaced, provided the head of the pattern does not occur again in
    the pattern. *)
Lemma replace_nonempty_first o old' new t rest :
  ~ In o old' ->
  (forall i, ~ occurs_at (o :: old') t i) ->
  replace_nonempty eq_dec o old' new (t ++ (o :: old') ++ rest)
  = t ++ new ++ replace_nonempty eq_dec o old' new rest.
Proof.
  intros Hin. induction t as [|c t IH]; intros H; rewrite replace_nonempty_step.
  - change ([] ++ (o :: old') ++ rest) with ((o :: old') ++ rest).
    rewrite (startswith_app eq_dec (o :: old') rest).
    rewrite skipn_app, skipn_all, Nat.sub_diag. reflexivity.
  - destruct (startswith eq_dec (o :: old') ((c :: t) ++ (o :: old') ++ rest))
      eqn:E.
    + exfalso. apply (no_occurrence_startswith) in H.
      simpl in E, H. destruct (eq_dec o c); [|discriminate].
      apply startswith_stops in E; [congruence | exact Hin].
    + cbn [app]. f_equal. apply IH. eapply no_occurrence_tail. exact H.
Qed.

Lemma replace_nonempty_join o old' new p0 pieces :
  ~ In o old' ->
  Forall (fun p => forall i, ~ occurs_at (o :: old') p i) (p0 :: pieces) ->
  replace_nonempty eq_dec o old' new (join (o :: old') p0 pieces)
  = join new p0 pieces.
Proof.
  intros Hin. revert p0. induction pieces as [|p pieces IH]; intros p0 H;
    cbn [join].
  - apply replace_nonempty_no_occurrence. inversion H. assumption.
  - inversion H as [|? ? H0 H']. subst.
    rewrite replace_nonempty_first by assumption.
    rewrite IH by assumption. reflexivity.
Qed.

End ReplaceFacts.

(** ** The commit rewriter *)

Lemma utf8_encode_app s1 s2 :
  utf8_encode (s1 ++ s2) =
  match utf8_encode s1, utf8_encode s2 with
  | Some b1, Some b2 => Some (b1 ++ b2)
  | _, _ => None
  end.
Proof.
  induction s1 as [|c s1 IH]; simpl.
  - destruct (utf8_encode s2); reflexivity.
  - rewrite IH. destruct (utf8_encode_codepoint c), (utf8_encode s1),
      (utf8_encode s2); try reflexivity.
    rewrite app_assoc. reflexivity.
Qed.

Lemma utf8_decode_valid b s : utf8_decode b = Some s -> utf8_encode s = Some b.
Proof. apply utf8_encode_decode with (n := length b). apply le_n. Qed.

Ltac refute H q Hnc :=
  first [ discriminate H
        | rewrite Hnc, ?andb_false_r in H; cbn [andb] in H; discriminate H
        | let x := fresh "x" in let q' := fresh "q" in
          destruct q as [|x q']; cbn iota in H; refute H q' Hnc ].

(** An ASCII byte is a character of its own: a valid text splits around
    it. *)
Lemma utf8_decode_split_ascii (n : nat) : forall p a q t,
  (length p <= n)%nat -> Byte.to_N a < 128 ->
  utf8_decode (p ++ a :: q) = Some t ->
  exists t1 t2, utf8_decode p = Some t1 /\ utf8_decode q = Some t2 /\
                t = t1 ++ Byte.to_N a :: t2.
Proof.
  induction n as [|n IH]; intros p a q t Hn Ha H.
  - destruct p; [|simpl in Hn; lia]. cbn [app utf8_decode] in H. cbv zeta in H.
    replace (Byte.to_N a <? 128) with true in H by (symmetry; apply N.ltb_lt; lia).
    apply option_map_cons_Some in H. destruct H as (s' & H & ->).
    exists [], s'. auto.
  - destruct p as [|b0 r0].
    { apply (IH [] a q t); [simpl; lia | exact Ha | exact H]. }
    assert (Hnc : is_continuation (Byte.to_N a) = false).
    { unfold is_continuation. apply andb_false_iff. left. apply N.leb_gt. lia. }
    cbn [app utf8_decode] in H |- *. cbv zeta in H |- *.
    destruct (Byte.to_N b0 <? 128) eqn:E1.
    { apply option_map_cons_Some in H. destruct H as (s' & H & ->).
      apply IH in H; [|simpl in Hn; lia | exact Ha].
      destruct H as (t1 & t2 & H1 & H2 & ->). rewrite H1.
      exists (Byte.to_N b0 :: t1), t2. auto. }
    destruct (Byte.to_N b0 <? 194) eqn:E2; [discriminate|].
    destruct (Byte.to_N b0 <? 224) eqn:E3.
    { destruct r0 as [|b1 r1]; cbn [app] in H.
      - refute H q Hnc.
      - destruct (is_continuation (Byte.to_N b1)); [|discriminate].
        apply option_map_cons_Some in H. destruct H as (s' & H & ->).
        apply IH in H; [|simpl in Hn; lia | exact Ha].
        destruct H as (t1 & t2 & H1 & H2 & ->). rewrite H1.
        eexists (_ :: t1), t2. split; [reflexivity|]. auto. }
    destruct (Byte.to_N b0 <? 240) eqn:E4.
    { destruct r0 as [|b1 [|b2 r2]]; cbn [app] in H.
      - refute H q Hnc.
      - refute H q Hnc.
      - match type of H with (if ?c then _ else _) = _ =>
          destruct c; [|discriminate] end.
        apply option_map_cons_Some in H. destruct H as (s' & H & ->).
        apply IH in H; [|simpl in Hn; lia | exact Ha].
        destruct H as (t1 & t2 & H1 & H2 & ->). rewrite H1.
        eexists (_ :: t1), t2. split; [reflexivity|]. auto. }
    destruct (Byte.to_N b0 <? 245) eqn:E5; [|discriminate].
    destruct r0 as [|b1 [|b2 [|b3 r3]]]; cbn [app] in H.
    + refute H q Hnc.
    + refute H q Hnc.
    + refute H q Hnc.
    + match type of H with (if ?c then _ else _) = _ =>
        destruct c; [|discriminate] end.
      apply option_map_cons_Some in H. destruct H as (s' & H & ->).
      apply IH in H; [|simpl in Hn; lia | exact Ha].
      destruct H as (t1 & t2 & H1 & H2 & ->). rewrite H1.
      eexists (_ :: t1), t2. split; [reflexivity|]. auto.
Qed.

(** A valid text splits around an ASCII run. *)
Lemma utf8_decode_split_run run : Forall (fun a => Byte.to_N a < 128) run ->
  run <> [] ->
  forall p q t, utf8_decode (p ++ run ++ q) = Some t ->
  exists t1 t2, utf8_decode p = Some t1 /\ utf8_decode q = Some t2 /\
                t = t1 ++ map Byte.to_N run ++ t2.
Proof.
  induction 1 as [|a run Ha Hrun IH]; intros Hne p q t H; [congruence|].
  cbn [app] in H.
  apply utf8_decode_split_ascii with (n := length p) in H; [|apply le_n | exact Ha].
  destruct H as (t1 & t2 & H1 & H2 & ->).
  destruct run as [|a' run'].
  - exists t1, t2. auto.
  - apply (IH ltac:(discriminate) [] q t2) in H2.
    destruct H2 as (u1 & u2 & Hu1 & Hu2 & ->). inversion Hu1. subst u1.
    exists t1, u2. auto.
Qed.

Lemma commit_literal_bytes_ascii :
  Forall (fun a => Byte.to_N a < 128) commit_literal_bytes /\
  commit_literal_bytes <> [] /\
  map Byte.to_N commit_literal_bytes = commit_literal /\
  utf8_encode commit_literal = Some commit_literal_bytes /\
  utf8_encode commit_marker = Some commit_marker_bytes.
Proof.
  split; [|split; [discriminate | repeat split; vm_compute; reflexivity]].
  vm_compute. repeat constructor.
Qed.

Lemma commit_literal_shape :
  exists old', commit_literal = 67 :: old' /\ ~ In 67 old' /\
    exists suffix, commit_literal = commit_marker ++ suffix.
Proof.
  eexists. split; [reflexivity|]. split.
  - vm_compute. intros H. repeat (destruct H as [H|H]; [discriminate H|]).
    exact H.
  - eexists. vm_compute. reflexivity.
Qed.

(** An occurrence of the literal in the text shows in the bytes. *)
Lemma literal_occurs_in_bytes b t i :
  utf8_decode b = Some t -> occurs_at commit_literal t i ->
  exists j, occurs_at commit_literal_bytes b j.
Proof.
  intros Hd (pre & post & -> & _). apply utf8_decode_valid in Hd.
  rewrite !utf8_encode_app in Hd.
  destruct commit_literal_bytes_ascii as (_ & _ & _ & He & _). rewrite He in Hd.
  destruct (utf8_encode pre) as [bp|]; [|discriminate].
  destruct (utf8_encode post) as [bq|]; [|discriminate].
  inversion Hd. exists (length bp), bp, bq. auto.
Qed.

Lemma no_literal_in_text b t :
  utf8_decode b = Some t ->
  (forall i, ~ occurs_at commit_literal_bytes b i) ->
  forall i, ~ occurs_at commit_literal t i.
Proof.
  intros Hd H i Hi. destruct (literal_occurs_in_bytes Hd Hi) as [j Hj].
  exact (H j Hj).
Qed.

(** The test for ["Commit: "] changes nothing: a text without it has no
    occurrence of the literal, and the replacement leaves it as it is. *)
Lemma modify_commit_object_unguarded object_data new_commit_field :
  modify_commit_object object_data new_commit_field =
  (object_str <- decode_utf8 object_data ;;
   encode_utf8 (str_replace object_str commit_literal
                  (commit_marker ++ new_commit_field))).
Proof.
  unfold modify_commit_object. destruct (decode_utf8 object_data) as [t|e];
    [|reflexivity].
  cbn [bind]. destruct (str_contains commit_marker t) eqn:E; [reflexivity|].
  f_equal. symmetry.
  destruct commit_literal_shape as (old' & Hl & _ & suffix & Hs).
  unfold str_replace, replace. rewrite Hl.
  apply replace_nonempty_no_occurrence. rewrite <- Hl.
  intros i (pre & post & -> & Hi).
  assert (Hc : str_contains commit_marker (pre ++ commit_literal ++ post) = true).
  { apply contains_occurs. exists i, pre, (suffix ++ post).
    rewrite Hs, <- app_assoc. auto. }
  congruence.
Qed.

(** C6: a payload that is valid UTF-8 and does not contain the literal is
    returned as it is, and nothing is raised. *)
Theorem modify_commit_object_without_literal object_data new_commit_field :
  utf8_decode object_data <> None ->
  (forall i, ~ occurs_at commit_literal_bytes object_data i) ->
  modify_commit_object object_data new_commit_field = Ok object_data.
Proof.
  intros Hvalid Hnone. rewrite modify_commit_object_unguarded.
  unfold decode_utf8. destruct (utf8_decode object_data) as [t|] eqn:Hd;
    [|congruence].
  cbn [bind]. destruct commit_literal_shape as (old' & Hl & _).
  unfold str_replace, replace. rewrite Hl.
  rewrite replace_nonempty_no_occurrence
    by (rewrite <- Hl; apply (no_literal_in_text Hd Hnone)).
  unfold encode_utf8. rewrite (utf8_decode_valid Hd). reflexivity.
Qed.

Lemma modify_commit_object_without_literal_witness :
  utf8_decode (bytes_of_string "tree 0 Commit: me") <> None /\
  modify_commit_object (bytes_of_string "tree 0 Commit: me")
    Example.new_commit_field
  = Ok (bytes_of_string "tree 0 Commit: me").
Proof.
  split; [vm_compute; discriminate|].
  apply modify_commit_object_without_literal.
  - vm_compute. discriminate.
  - intros i Hi. apply (occurs_at_startswith Byte.byte_eq_dec) in Hi.
    destruct Hi as [Hi Hs]. revert Hs.
    do 18 (destruct i as [|i]; [vm_compute; discriminate|]).
    simpl in Hi. lia.
Defined.

(** The text of a payload made of pieces around the literal: the pieces
    are texts themselves. *)
Lemma utf8_decode_join pieces : forall p0 t,
  utf8_decode (join commit_literal_bytes p0 pieces) = Some t ->
  exists t0 ts,
    utf8_decode p0 = Some t0 /\
    Forall2 (fun p u => utf8_decode p = Some u) pieces ts /\
    t = join commit_literal t0 ts.
Proof.
  destruct commit_literal_bytes_ascii as (Hascii & Hne & Hmap & _).
  induction pieces as [|p pieces IH]; intros p0 t H; cbn [join] in H.
  - exists t, []. auto.
  - apply (utf8_decode_split_run Hascii Hne) in H.
    destruct H as (t0 & t' & H0 & H' & ->).
    apply IH in H'. destruct H' as (t1 & ts & H1 & Hts & ->).
    exists t0, (t1 :: ts). rewrite Hmap. auto.
Qed.

Lemma utf8_encode_join sep sep_bytes ts : forall pieces t0 p0,
  utf8_encode sep = Some sep_bytes ->
  utf8_decode p0 = Some t0 ->
  Forall2 (fun p u => utf8_decode p = Some u) pieces ts ->
  utf8_encode (join sep t0 ts) = Some (join sep_bytes p0 pieces).
Proof.
  induction ts as [|t1 ts IH]; intros pieces t0 p0 Hsep H0 H;
    inversion H; subst; cbn [join].
  - apply utf8_decode_valid. exact H0.
  - rewrite !utf8_encode_app, (utf8_decode_valid H0), Hsep.
    erewrite IH; eauto.
Qed.

(** C5 (as amended): every occurrence of the literal is replaced, and
    nothing else changes. A payload is the pieces [p0 :: pieces], none of
    which contains the literal, with the literal between them; if it is
    valid UTF-8 and the replacement text encodes to [new_bytes], the result
    is the same pieces with ["Commit: " + new_bytes] between them. With one
    occurrence ([pieces] of length 1) that is one replacement. *)
Theorem modify_commit_object_replaces_every_occurrence p0 pieces
    new_commit_field new_bytes :
  utf8_decode (join commit_literal_bytes p0 pieces) <> None ->
  utf8_encode new_commit_field = Some new_bytes ->
  Forall (fun p => forall i, ~ occurs_at commit_literal_bytes p i)
    (p0 :: pieces) ->
  modify_commit_object (join commit_literal_bytes p0 pieces) new_commit_field
  = Ok (join (commit_marker_bytes ++ new_bytes) p0 pieces).
Proof.
  intros Hvalid Hnew Hpieces. rewrite modify_commit_object_unguarded.
  unfold decode_utf8.
  destruct (utf8_decode (join commit_literal_bytes p0 pieces)) as [t|] eqn:Hd;
    [|congruence].
  cbn [bind]. destruct (utf8_decode_join Hd) as (t0 & ts & H0 & Hts & ->).
  destruct commit_literal_shape as (old' & Hl & Hin & _).
  destruct commit_literal_bytes_ascii as (_ & _ & _ & _ & Hmark).
  unfold str_replace, replace. rewrite Hl at 1. rewrite Hl.
  rewrite replace_nonempty_join.
  - unfold encode_utf8.
    erewrite utf8_encode_join; [reflexivity | | exact H0 | exact Hts].
    rewrite utf8_encode_app, Hmark, Hnew. reflexivity.
  - exact Hin.
  - rewrite <- Hl. inversion Hpieces as [|? ? Hp0 Hps]. subst.
    constructor; [exact (no_literal_in_text H0 Hp0)|].
    clear - Hts Hps. induction Hts as [|p u ps us Hpu _ IH];
      [constructor|].
    inversion Hps. subst. constructor; [|apply IH; assumption].
    eapply no_literal_in_text; eassumption.
Qed.

Lemma modify_commit_object_replaces_every_occurrence_witness :
  modify_commit_object
    (join commit_literal_bytes (bytes_of_string "a ")
       [bytes_of_string " b "; bytes_of_string " c"])
    Example.new_commit_field
  = Ok (join (commit_marker_bytes ++ bytes_of_string "Bob <bob@example.com>")
          (bytes_of_string "a ")
          [bytes_of_string " b "; bytes_of_string " c"]).
Proof.
  apply modify_commit_object_replaces_every_occurrence.
  - vm_compute. discriminate.
  - vm_compute. reflexivity.
  - repeat constructor; intros i Hi;
      apply (occurs_at_startswith Byte.byte_eq_dec) in Hi;
      destruct Hi as [Hi Hs]; revert Hs;
      do 4 (destruct i as [|i]; [vm_compute; discriminate|]);
      simpl in Hi; lia.
Defined.

(** C5, as stated, fails on a payload with the literal twice: both
    occurrences are replaced, so the result is not the payload with one
    occurrence replaced and every other byte left alone. *)
Lemma second_occurrence_is_replaced_too :
  utf8_decode (commit_literal_bytes ++ commit_literal_bytes) <> None /\
  occurs_at commit_literal_bytes
    (commit_literal_bytes ++ commit_literal_bytes) 0 /\
  exists out,
    modify_commit_object (commit_literal_bytes ++ commit_literal_bytes)
      (str_of_string "X") = Ok out /\
    ~ exists pre post,
        commit_literal_bytes ++ commit_literal_bytes
        = pre ++ commit_literal_bytes ++ post /\
        out = pre ++ (commit_marker_bytes ++ bytes_of_string "X") ++ post.
Proof.
  split; [vm_compute; discriminate|]. split.
  { exists [], commit_literal_bytes. auto. }
  eexists. split; [vm_compute; reflexivity|].
  intros (pre & post & Hin & Hout).
  apply (f_equal (@length byte)) in Hin, Hout.
  rewrite !length_app in Hin, Hout.
  change (length commit_literal_bytes) with 35%nat in Hin.
  change (length commit_marker_bytes) with 8%nat in Hout.
  simpl in Hin, Hout. lia.
Qed.

(** * Further properties *)

(** ** The object header: errors and shape *)

(** The value of a byte has bit 7 clear exactly when it is below 128. *)
Lemma byte_bit7 b : (N.land (Byte.to_N b) 128 =? 0) = (Byte.to_N b <? 128).
Proof. destruct b; reflexivity. Qed.

Lemma parse_object_header_loop_shape (n : nat) :
  forall stream first_byte size shift,
  (remaining stream <= n)%nat ->
  (N.land first_byte 128 =? 0) = false ->
  (parse_object_header_loop stream first_byte size shift = Raise TypeError /\
   Forall (fun b => 128 <= Byte.to_N b) (unread stream)) \/
  (exists size' stream' run last,
     parse_object_header_loop stream first_byte size shift
     = Ok (size', stream') /\
     unread stream = run ++ last :: unread stream' /\
     Forall (fun b => 128 <= Byte.to_N b) run /\
     Byte.to_N last < 128).
Proof.
  induction n as [|n IH]; intros s fb size shift Hn Hfb;
    rewrite parse_object_header_loop_step, Hfb;
    destruct (unread s) as [|c u] eqn:Hu.
  - left. unfold read. rewrite Hu. simpl. auto.
  - unfold remaining in Hn. rewrite Hu in Hn. simpl in Hn. lia.
  - left. unfold read. rewrite Hu. simpl. auto.
  - destruct (read_1_cons Hu) as (s1 & Hr & Hu1 & _). rewrite Hr.
    destruct (N.land (Byte.to_N c) 128 =? 0) eqn:Hc.
    + right. rewrite parse_object_header_loop_step, Hc.
      eexists _, s1, [], c. rewrite Hu1. repeat split; auto.
      rewrite byte_bit7 in Hc. apply N.ltb_lt. exact Hc.
    + assert (Hge : 128 <= Byte.to_N c)
        by (rewrite byte_bit7 in Hc; apply N.ltb_ge; exact Hc).
      assert (Hrem : (remaining s1 <= n)%nat)
        by (unfold remaining in *; rewrite Hu in Hn; rewrite Hu1;
            simpl in Hn; lia).
      destruct (IH s1 (Byte.to_N c)
                  (N.lor size (N.shiftl (N.land (Byte.to_N c) 127) shift))
                  (shift + 7) Hrem Hc)
        as [[He Hall] | (sz & s' & run & last & He & Hs & Hrun & Hlast)].
      * left. rewrite Hu1 in Hall. auto.
      * right. exists sz, s', (c :: run), last. rewrite Hu1 in Hs. rewrite Hs.
        auto.
Qed.

(** X1: a header cannot be read exactly when every unread byte has its
    continuation bit set (in particular at the end of the buffer); the
    exception is then [TypeError]. *)
Theorem parse_object_header_fails_iff stream :
  parse_object_header stream = Raise TypeError <->
  Forall (fun b => 128 <= Byte.to_N b) (unread stream).
Proof.
  unfold parse_object_header. destruct (unread stream) as [|c u] eqn:Hu.
  - unfold read. rewrite Hu. simpl. split; auto.
  - destruct (read_1_cons Hu) as (s1 & Hr & Hu1 & _). rewrite Hr.
    cbn [ord bind].
    destruct (N.land (Byte.to_N c) 128 =? 0) eqn:Hc.
    + rewrite parse_object_header_loop_step, Hc. cbn [bind].
      split; [discriminate|]. intros H. inversion H as [|? ? Hge _]. subst.
      rewrite byte_bit7 in Hc. apply N.ltb_lt in Hc. lia.
    + assert (Hge : 128 <= Byte.to_N c)
        by (rewrite byte_bit7 in Hc; apply N.ltb_ge; exact Hc).
      destruct (@parse_object_header_loop_shape _ s1 (Byte.to_N c)
                  (N.land (Byte.to_N c) 15) 4 (le_n _) Hc)
        as [[He Hall] | (sz & s' & run & last & He & Hs & Hrun & Hlast)];
        rewrite He; cbn [bind].
      * rewrite Hu1 in Hall. split; auto.
      * split; [discriminate|]. intros H. inversion H as [|? ? _ Hrest].
        rewrite <- Hu1, Hs in Hrest.
        apply Forall_app in Hrest. destruct Hrest as [_ Hrest].
        inversion Hrest. lia.
Qed.

(** X2: a header that is read consists of the bytes up to and including
    the first one with the continuation bit clear, and the type is bits 4
    to 6 of its first byte. *)
Theorem parse_object_header_consumes stream object_type size stream' :
  parse_object_header stream = Ok (object_type, size, stream') ->
  exists run last,
    unread stream = run ++ last :: unread stream' /\
    Forall (fun b => 128 <= Byte.to_N b) run /\
    Byte.to_N last < 128 /\
    object_type
    = N.land (N.shiftr (Byte.to_N (hd last run)) 4) 7.
Proof.
  unfold parse_object_header. destruct (unread stream) as [|c u] eqn:Hu.
  - unfold read. rewrite Hu. simpl. discriminate.
  - destruct (read_1_cons Hu) as (s1 & Hr & Hu1 & _). rewrite Hr.
    cbn [ord bind].
    destruct (N.land (Byte.to_N c) 128 =? 0) eqn:Hc.
    + rewrite parse_object_header_loop_step, Hc. cbn [bind].
      intros H. inversion H. exists [], c. rewrite <- Hu1.
      match goal with E : s1 = _ |- _ => rewrite <- E end.
      repeat split; auto. rewrite byte_bit7 in Hc. apply N.ltb_lt. exact Hc.
    + assert (Hge : 128 <= Byte.to_N c)
        by (rewrite byte_bit7 in Hc; apply N.ltb_ge; exact Hc).
      destruct (@parse_object_header_loop_shape _ s1 (Byte.to_N c)
                  (N.land (Byte.to_N c) 15) 4 (le_n _) Hc)
        as [[He Hall] | (sz & s' & run & last & He & Hs & Hrun & Hlast)];
        rewrite He; cbn [bind]; [discriminate|].
      intros H. inversion H. exists (c :: run), last.
      match goal with E : s' = _ |- _ => rewrite <- E end.
      rewrite <- Hu1, Hs. repeat split; auto.
Qed.

Lemma parse_object_header_consumes_witness :
  exists run last,
    unread (objects_of Example.one_commit)
    = run ++ last :: unread (mkBytesIO Example.one_commit 14) /\
    Forall (fun b => 128 <= Byte.to_N b) run /\
    Byte.to_N last < 128 /\
    1 = N.land (N.shiftr (Byte.to_N (hd last run)) 4) 7.
Proof.
  apply (@parse_object_header_consumes (objects_of Example.one_commit) 1 47
           (mkBytesIO Example.one_commit 14)).
  vm_compute. reflexivity.
Defined.

(** ** [struct] round trip and the range of [write_object_header] *)

Lemma lor_shiftl_add x k a :
  a < 2 ^ k -> N.lor (N.shiftl x k) a = x * 2 ^ k + a.
Proof.
  intros Ha.
  assert (Hland : N.land (N.shiftl x k) a = 0).
  { apply N.bits_inj. intros n. rewrite N.land_spec, shiftl_testbit, N.bits_0.
    destruct (N.leb_spec k n); [|reflexivity].
    rewrite (small_testbit Ha) by assumption. apply andb_false_r. }
  rewrite <- N.lxor_lor, <- N.add_nocarry_lxor by exact Hland.
  rewrite N.shiftl_mul_pow2. reflexivity.
Qed.

(** The value [struct.unpack(">I", ...)] gives for four bytes. *)
Lemma unpack_I_value b3 b2 b1 b0 :
  unpack_I [b3; b2; b1; b0]
  = Ok (Byte.to_N b3 * 2 ^ 24 + (Byte.to_N b2 * 2 ^ 16
        + (Byte.to_N b1 * 2 ^ 8 + Byte.to_N b0))).
Proof.
  pose proof (Byte.to_N_bounded b0). pose proof (Byte.to_N_bounded b1).
  pose proof (Byte.to_N_bounded b2). pose proof (Byte.to_N_bounded b3).
  cbn [unpack_I]. f_equal.
  rewrite (@lor_shiftl_add (Byte.to_N b1) 8) by (simpl; lia).
  rewrite (@lor_shiftl_add (Byte.to_N b2) 16) by (simpl; lia).
  rewrite (@lor_shiftl_add (Byte.to_N b3) 24) by (simpl; lia).
  reflexivity.
Qed.

(** X3: packing what was unpacked gives the four bytes back, and never
    fails. *)
Theorem pack_I_unpack_I b v : unpack_I b = Ok v -> pack_I v = Ok b.
Proof.
  destruct b as [|b3 [|b2 [|b1 [|b0 [|? ?]]]]]; try discriminate.
  rewrite unpack_I_value.
  set (v' := Byte.to_N b3 * 2 ^ 24 + (Byte.to_N b2 * 2 ^ 16
             + (Byte.to_N b1 * 2 ^ 8 + Byte.to_N b0))).
  intros H. assert (Hv : v = v') by congruence. subst v. clear H.
  pose proof (Byte.to_N_bounded b0). pose proof (Byte.to_N_bounded b1).
  pose proof (Byte.to_N_bounded b2). pose proof (Byte.to_N_bounded b3).
  unfold pack_I.
  replace (v' <? 2 ^ 32) with true
    by (symmetry; apply N.ltb_lt; unfold v'; simpl; lia).
  rewrite !N.shiftr_div_pow2.
  assert (E3 : byte_of_N_mod (v' / 2 ^ 24) = b3).
  { unfold byte_of_N_mod.
    replace ((v' / 2 ^ 24) mod 256) with (Byte.to_N b3)
      by (unfold v'; simpl; lia).
    rewrite Byte.of_to_N. reflexivity. }
  assert (E2 : byte_of_N_mod (v' / 2 ^ 16) = b2).
  { unfold byte_of_N_mod.
    replace ((v' / 2 ^ 16) mod 256) with (Byte.to_N b2)
      by (unfold v'; simpl; lia).
    rewrite Byte.of_to_N. reflexivity. }
  assert (E1 : byte_of_N_mod (v' / 2 ^ 8) = b1).
  { unfold byte_of_N_mod.
    replace ((v' / 2 ^ 8) mod 256) with (Byte.to_N b1)
      by (unfold v'; simpl; lia).
    rewrite Byte.of_to_N. reflexivity. }
  assert (E0 : byte_of_N_mod v' = b0).
  { unfold byte_of_N_mod.
    replace (v' mod 256) with (Byte.to_N b0) by (unfold v'; simpl; lia).
    rewrite Byte.of_to_N. reflexivity. }
  rewrite E3, E2, E1, E0. reflexivity.
Qed.

Lemma pack_I_unpack_I_witness :
  pack_I 2 = Ok [x00; x00; x00; x02].
Proof.
  apply (@pack_I_unpack_I [x00; x00; x00; x02] 2). vm_compute. reflexivity.
Defined.

Lemma lor_128_bound_byte h : h < 256 -> N.lor h 128 < 256.
Proof.
  intros H. destruct (N.eq_dec (N.lor h 128) 0) as [->|Hn]; [lia|].
  apply N.log2_lt_pow2 with (b := 8); [lia|].
  rewrite N.log2_lor. change (N.log2 128) with 7.
  destruct (N.eq_dec h 0) as [->|Hh]; [simpl; lia|].
  assert (N.log2 h < 8) by (apply N.log2_lt_pow2; lia). lia.
Qed.

Lemma lor_128_large h : 256 <= h -> 256 <= N.lor h 128.
Proof.
  intros H. destruct (N.lt_ge_cases (N.lor h 128) 256) as [Hlt|]; [|assumption].
  exfalso.
  assert (Hpos : 0 < N.lor h 128).
  { destruct (N.eq_dec (N.lor h 128) 0) as [E|]; [|lia].
    apply N.lor_eq_0_iff in E. lia. }
  apply (N.log2_lt_pow2 _ 8 Hpos) in Hlt. rewrite N.log2_lor in Hlt.
  assert (N.log2 h < 8) by lia.
  apply N.log2_lt_pow2 in H0; simpl in H0; lia.
Qed.

Lemma pack_B_large v : 256 <= v -> pack_B v = Raise StructError.
Proof.
  intros H. unfold pack_B. destruct (Byte.of_N v) eqn:E; [|reflexivity].
  apply Byte.to_of_N in E. pose proof (Byte.to_N_bounded b). lia.
Qed.

(** X4: [write_object_header] succeeds for the types below 16 and raises
    [struct.error] for all others, whatever the size. (For the types 8 to
    15 the byte written has its continuation bit set by the type itself,
    so the header does not read back.) *)
Theorem write_object_header_range out object_type size :
  (object_type < 16 ->
   exists header,
     write_object_header out object_type size = Ok (out ++ header)) /\
  (16 <= object_type ->
   write_object_header out object_type size = Raise StructError).
Proof.
  assert (Hhead : N.lor (N.shiftl object_type 4) (N.land size 15)
                  = object_type * 16 + size mod 16).
  { change 15 with (N.ones 4). rewrite N.land_ones.
    apply lor_shiftl_add. apply N.mod_lt. discriminate. }
  pose proof (N.mod_lt size 16 ltac:(discriminate)) as Hmod.
  unfold write_object_header. rewrite Hhead.
  rewrite write_object_header_loop_step.
  destruct (N.eqb_spec (N.shiftr size 4) 0) as [Hr|Hr]; split; intros Ht.
  - cbn [bind]. destruct (@pack_B_small (object_type * 16 + size mod 16))
      as (c & Hc & _); [lia|].
    rewrite Hc. cbn [bind]. eauto.
  - cbn [bind]. rewrite pack_B_large by lia. reflexivity.
  - destruct (@pack_B_small (N.lor (object_type * 16 + size mod 16) 128))
      as (c & Hc & _); [apply lor_128_bound_byte; lia|].
    rewrite Hc. cbn [bind].
    destruct (@loops_inverse _ (N.shiftr (N.shiftr size 4) 7)
                (N.land (N.shiftr size 4) 127) (out ++ [c]) (le_n _))
      as (c1 & w & Hw & _).
    { change 127 with (N.ones 7). rewrite N.land_ones.
      apply N.mod_lt. discriminate. }
    rewrite Hw. rewrite <- app_assoc. eauto.
  - rewrite pack_B_large by (apply lor_128_large; lia). reflexivity.
Qed.

Lemma write_object_header_range_witness :
  (exists header, write_object_header PACK 15 100 = Ok (PACK ++ header)) /\
  write_object_header PACK 16 100 = Raise StructError.
Proof.
  split.
  - apply (proj1 (write_object_header_range PACK 15 100)). reflexivity.
  - apply (proj2 (write_object_header_range PACK 16 100)). discriminate.
Defined.

(** ** The packfile header *)

Section PackfileHeader.

Context {zlib : Zlib}.

(** The request behind the marker, when the 12-byte header is there: the
    header is copied and the objects are processed. *)
Lemma modify_push_request_header pre v3 v2 v1 v0 n3 n2 n1 n0 rest
    new_commit_field :
  let header := PACK ++ [v3; v2; v1; v0] ++ [n3; n2; n1; n0] in
  let binary_data := pre ++ header ++ rest in
  find Byte.byte_eq_dec binary_data PACK = Z.of_nat (length pre) ->
  forall num_objects, unpack_I [n3; n2; n1; n0] = Ok num_objects ->
  modify_push_request binary_data new_commit_field =
  ('(packfile_stream, modified_packfile) <-
     process_objects (N.to_nat num_objects)
       (mkBytesIO (header ++ rest) 12) header new_commit_field ;;
   Ok (pre ++ modified_packfile ++ calculate_checksum modified_packfile)).
Proof.
  intros header binary_data Hfind num Hnum.
  unfold modify_push_request. rewrite Hfind.
  replace (Z.of_nat (length pre) =? -1)%Z with false
    by (symmetry; apply Z.eqb_neq; lia).
  rewrite Nat2Z.id. unfold binary_data.
  rewrite skipn_app, skipn_all, Nat.sub_diag, firstn_app, firstn_all,
    Nat.sub_diag.
  cbn [skipn firstn app]. rewrite app_nil_r.
  change (read 4 (BytesIO_open (header ++ rest)))
    with (PACK, mkBytesIO (header ++ rest) 4).
  cbn beta iota. change (negb (bytes_eqb PACK PACK)) with false. cbn iota.
  change (read 4 (mkBytesIO (header ++ rest) 4))
    with ([v3; v2; v1; v0], mkBytesIO (header ++ rest) 8).
  cbn beta iota.
  change (read 4 (mkBytesIO (header ++ rest) 8))
    with ([n3; n2; n1; n0], mkBytesIO (header ++ rest) 12).
  cbn beta iota.
  destruct (unpack_I [v3; v2; v1; v0]) as [version|] eqn:Hv;
    [|rewrite unpack_I_value in Hv; discriminate].
  rewrite Hnum. cbn [bind].
  rewrite (pack_I_unpack_I Hv), (pack_I_unpack_I Hnum). cbn [bind].
  reflexivity.
Qed.

(** X5: a packfile that declares no object. The output is the bytes before
    the marker, the 12-byte header as it came (any version), and the SHA-1
    of that header; whatever follows the header in the input, its trailer
    included, is neither checked nor copied. *)
Theorem modify_push_request_no_objects pre v3 v2 v1 v0 rest new_commit_field :
  let header := PACK ++ [v3; v2; v1; v0] ++ [x00; x00; x00; x00] in
  find Byte.byte_eq_dec (pre ++ header ++ rest) PACK = Z.of_nat (length pre) ->
  modify_push_request (pre ++ header ++ rest) new_commit_field
  = Ok (pre ++ header ++ calculate_checksum header).
Proof.
  intros header Hfind. subst header.
  rewrite (@modify_push_request_header pre v3 v2 v1 v0 x00 x00 x00 x00 rest
             new_commit_field Hfind 0 eq_refl).
  reflexivity.
Qed.

(** X6: a result keeps the input up to the end of the 12-byte packfile
    header: the version and the object count are copied as they are, no
    version is refused. *)
Theorem modify_push_request_copies_header binary_data new_commit_field out :
  modify_push_request binary_data new_commit_field = Ok out ->
  exists i objects,
    find Byte.byte_eq_dec binary_data PACK = Z.of_nat i /\
    (i + 12 <= length binary_data)%nat /\
    out = firstn (i + 12) binary_data ++ objects
          ++ calculate_checksum (firstn 12 (skipn i binary_data) ++ objects).
Proof.
  intros H.
  destruct (find_spec Byte.byte_eq_dec binary_data PACK)
    as [[Hf _] | (i & Hf & Hocc & _)].
  { rewrite (modify_push_request_not_found _ Hf) in H. discriminate. }
  destruct Hocc as (pre & post & Hbin & Hlen). subst i.
  exists (length pre).
  destruct post as [|v3 [|v2 [|v1 [|v0 [|n3 [|n2 [|n1 [|n0 rest]]]]]]]];
    try (exfalso; subst binary_data; revert H; unfold modify_push_request;
         rewrite Hf;
         replace (Z.of_nat (length pre) =? -1)%Z with false
           by (symmetry; apply Z.eqb_neq; lia);
         rewrite Nat2Z.id, skipn_app, skipn_all, Nat.sub_diag;
         cbn; discriminate).
  subst binary_data.
  change (pre ++ PACK ++ v3 :: v2 :: v1 :: v0 :: n3 :: n2 :: n1 :: n0 :: rest)
    with (pre ++ (PACK ++ [v3; v2; v1; v0] ++ [n3; n2; n1; n0]) ++ rest)
    in *.
  destruct (unpack_I [n3; n2; n1; n0]) as [num|] eqn:Hnum;
    [|rewrite unpack_I_value in Hnum; discriminate].
  rewrite (modify_push_request_header new_commit_field Hf Hnum) in H.
  apply bind_Ok in H. destruct H as ([s o] & Hobjs & H). inversion H.
  assert (Hpre : forall count s0 o0 s' o',
             process_objects count s0 o0 new_commit_field = Ok (s', o') ->
             exists added, o' = o0 ++ added).
  { clear. induction count as [|count IH]; intros s0 o0 s' o' H; simpl in H.
    - inversion H. exists []. rewrite app_nil_r. reflexivity.
    - apply bind_Ok in H. destruct H as ([s1 o1] & H1 & H).
      apply IH in H. destruct H as (a2 & ->).
      unfold process_object in H1.
      apply bind_Ok in H1. destruct H1 as ([[t sz] s2] & _ & H1).
      destruct (decompress_object s2) as [cd s3].
      apply bind_Ok in H1. destruct H1 as (d & _ & H1).
      apply bind_Ok in H1. destruct H1 as (d' & _ & H1).
      apply bind_Ok in H1. destruct H1 as (o2 & Hw & H1).
      inversion H1. subst.
      destruct (write_object_header_appends Hw) as (hdr & ->).
      exists ((hdr ++ zlib_compress d') ++ a2).
      rewrite <- !app_assoc. reflexivity. }
  apply Hpre in Hobjs. destruct Hobjs as (objects & ->).
  exists objects. subst out. split; [exact Hf|]. split.
  - rewrite !length_app. simpl. lia.
  - rewrite skipn_app, skipn_all, Nat.sub_diag. cbn [skipn app].
    rewrite firstn_app, firstn_all2 by lia.
    replace (length pre + 12 - length pre)%nat with 12%nat by lia.
    cbn [firstn app PACK bytes_of_string list_byte_of_string].
    rewrite <- !app_assoc. reflexivity.
Qed.

(** X7: with the marker found and fewer than 12 bytes from it to the end
    of the request, [struct.error] is raised. *)
Theorem modify_push_request_truncated_header binary_data new_commit_field i :
  find Byte.byte_eq_dec binary_data PACK = Z.of_nat i ->
  (length binary_data < i + 12)%nat ->
  modify_push_request binary_data new_commit_field = Raise StructError.
Proof.
  intros Hf Hlen.
  destruct (find_spec Byte.byte_eq_dec binary_data PACK)
    as [[Hf' _] | (i' & Hf' & Hocc & _)]; [lia|].
  assert (i' = i) by lia. subst i'.
  destruct Hocc as (pre & post & Hbin & Hi). subst i binary_data.
  rewrite !length_app in Hlen. change (length PACK) with 4%nat in Hlen.
  unfold modify_push_request. rewrite Hf.
  replace (Z.of_nat (length pre) =? -1)%Z with false
    by (symmetry; apply Z.eqb_neq; lia).
  rewrite Nat2Z.id, skipn_app, skipn_all, Nat.sub_diag.
  destruct post as [|v3 [|v2 [|v1 [|v0 [|n3 [|n2 [|n1 [|n0 rest]]]]]]]];
    try reflexivity.
  simpl in Hlen. lia.
Qed.

End PackfileHeader.

Lemma modify_push_request_no_objects_witness :
  modify_push_request
    (Example.flush_pkt
       ++ (PACK ++ [x00; x00; x00; x07] ++ [x00; x00; x00; x00])
       ++ bytes_of_string "anything")
    Example.new_commit_field
  = Ok (Example.flush_pkt
          ++ (PACK ++ [x00; x00; x00; x07] ++ [x00; x00; x00; x00])
          ++ calculate_checksum
               (PACK ++ [x00; x00; x00; x07] ++ [x00; x00; x00; x00])).
Proof.
  apply (@modify_push_request_no_objects Example.zlib Example.flush_pkt
           x00 x00 x00 x07 (bytes_of_string "anything")
           Example.new_commit_field).
  vm_compute. reflexivity.
Defined.

Lemma modify_push_request_copies_header_witness :
  exists out i objects,
    modify_push_request (Example.flush_pkt ++ Example.one_commit)
      Example.new_commit_field = Ok out /\
    find Byte.byte_eq_dec (Example.flush_pkt ++ Example.one_commit) PACK
    = Z.of_nat i /\
    (i + 12 <= length (Example.flush_pkt ++ Example.one_commit))%nat /\
    out = firstn (i + 12) (Example.flush_pkt ++ Example.one_commit) ++ objects
          ++ calculate_checksum
               (firstn 12 (skipn i (Example.flush_pkt ++ Example.one_commit))
                  ++ objects).
Proof.
  eexists. 
  assert (H : modify_push_request (Example.flush_pkt ++ Example.one_commit)
                Example.new_commit_field = Ok _)
    by (vm_compute; reflexivity).
  destruct (modify_push_request_copies_header H) as (i & objects & H1 & H2 & H3).
  exists i, objects. split; [exact H|]. auto.
Defined.

Lemma modify_push_request_truncated_header_witness :
  modify_push_request (bytes_of_string "0000PACK" ++ [x00; x00; x00])
    Example.new_commit_field = Raise StructError.
Proof.
  apply (@modify_push_request_truncated_header Example.zlib
           (bytes_of_string "0000PACK" ++ [x00; x00; x00])
           Example.new_commit_field 4).
  - vm_compute. reflexivity.
  - apply Nat.ltb_lt. vm_compute. reflexivity.
Defined.

(** ** The commit rewriter: when it raises, and what it leaves alone *)

(** X8: the test for ["Commit: "] has no effect: the function is decoding,
    replacing the literal, and encoding, whether the text contains
    ["Commit: "] or not. *)
Theorem commit_marker_test_is_redundant object_data new_commit_field :
  modify_commit_object object_data new_commit_field =
  (object_str <- decode_utf8 object_data ;;
   encode_utf8 (str_replace object_str commit_literal
                  (commit_marker ++ new_commit_field))).
Proof. apply modify_commit_object_unguarded. Qed.

Lemma utf8_encode_Forall s :
  utf8_encode s <> None <->
  Forall (fun c => utf8_encode_codepoint c <> None) s.
Proof.
  induction s as [|c s IH]; simpl.
  - split; [constructor | discriminate].
  - destruct (utf8_encode_codepoint c) as [b|] eqn:Ec.
    + destruct (utf8_encode s) as [b'|].
      * split; [|discriminate]. intros _. constructor; [congruence|].
        apply IH. discriminate.
      * split; [congruence|]. intros H. inversion H. subst.
        exfalso. apply (proj2 IH); [assumption | reflexivity].
    + split; [congruence|]. intros H. inversion H. congruence.
Qed.

Section ReplaceMore.

Variable A : Type.
Variable eq_dec : forall x y : A, {x = y} + {x <> y}.

(** What holds of the text and of the replacement holds of the result. *)
Lemma replace_nonempty_Forall (P : A -> Prop) o old' new (n : nat) :
  Forall P new -> forall s, (length s <= n)%nat -> Forall P s ->
  Forall P (replace_nonempty eq_dec o old' new s).
Proof.
  intros Hnew. induction n as [|n IH]; intros s Hn Hs;
    rewrite replace_nonempty_step.
  - destruct s; [|simpl in Hn; lia].
    cbn [startswith]. constructor.
  - destruct (startswith eq_dec (o :: old') s) eqn:E.
    + apply Forall_app. split; [exact Hnew|].
      destruct s as [|c s]; [discriminate|].
      apply IH.
      * rewrite length_skipn. simpl in *. lia.
      * rewrite <- (firstn_skipn (length (o :: old')) (c :: s)) in Hs.
        apply Forall_app in Hs. apply Hs.
    + destruct s as [|c s]; [constructor|].
      inversion Hs. subst. constructor; [assumption|].
      apply IH; [simpl in Hn; lia | assumption].
Qed.

(** Replacing a pattern by itself changes nothing. *)
Lemma replace_nonempty_same o old' (n : nat) : forall s,
  (length s <= n)%nat ->
  replace_nonempty eq_dec o old' (o :: old') s = s.
Proof.
  induction n as [|n IH]; intros s Hn; rewrite replace_nonempty_step.
  - destruct s; [|simpl in Hn; lia].
    cbn [startswith]. reflexivity.
  - destruct (startswith eq_dec (o :: old') s) eqn:E.
    + destruct s as [|c s]; [discriminate|].
      rewrite IH by (rewrite length_skipn; simpl in *; lia).
      symmetry. apply (startswith_true E).
    + destruct s as [|c s]; [reflexivity|].
      rewrite IH by (simpl in Hn; lia). reflexivity.
Qed.

Lemma occurs_at_prefix (sub t rest : list A) j :
  occurs_at sub t j -> occurs_at sub (t ++ rest) j.
Proof.
  intros (pre & post & -> & Hj). exists pre, (post ++ rest).
  rewrite <- !app_assoc. auto.
Qed.

End ReplaceMore.

(** X9: on a payload that is valid UTF-8 the only exception is
    [UnicodeEncodeError], and it is raised exactly when the payload
    contains the literal and the replacement text cannot be encoded (it
    holds a lone surrogate). *)
Theorem modify_commit_object_raises_iff object_data new_commit_field :
  utf8_decode object_data <> None ->
  (modify_commit_object object_data new_commit_field
   = Raise UnicodeEncodeError <->
   (exists i, occurs_at commit_literal_bytes object_data i) /\
   utf8_encode new_commit_field = None) /\
  (forall e, modify_commit_object object_data new_commit_field = Raise e ->
             e = UnicodeEncodeError).
Proof.
  intros Hvalid. rewrite modify_commit_object_unguarded.
  unfold decode_utf8.
  destruct (utf8_decode object_data) as [t|] eqn:Hd; [|congruence].
  cbn [bind]. destruct commit_literal_shape as (old' & Hl & Hin & _).
  destruct commit_literal_bytes_ascii as (Hascii & Hne & Hmap & Hlit & Hmark).
  unfold str_replace, replace, encode_utf8. rewrite Hl at 1.
  assert (Htext : Forall (fun c => utf8_encode_codepoint c <> None) t).
  { apply utf8_encode_Forall. rewrite (utf8_decode_valid Hd). discriminate. }
  split.
  - split.
    + intros H.
      destruct (utf8_encode
                  (replace_nonempty N.eq_dec 67 old'
                     (commit_marker ++ new_commit_field) t)) eqn:E;
        [discriminate|].
      destruct (find_spec N.eq_dec t commit_literal)
        as [[_ Hnone] | (i & _ & Hocc & _)].
      { rewrite replace_nonempty_no_occurrence in E
          by (rewrite <- Hl; exact Hnone).
        rewrite (utf8_decode_valid Hd) in E. discriminate. }
      split; [exact (literal_occurs_in_bytes Hd Hocc)|].
      destruct (utf8_encode new_commit_field) eqn:En; [|reflexivity].
      exfalso. revert E. apply utf8_encode_Forall.
      apply replace_nonempty_Forall with (n := length t); auto.
      apply Forall_app. split.
      * apply utf8_encode_Forall. rewrite Hmark. discriminate.
      * apply utf8_encode_Forall. rewrite En. discriminate.
    + intros [[j Hj] Hnew].
      destruct Hj as (p & q & -> & _).
      apply (utf8_decode_split_run Hascii Hne) in Hd.
      destruct Hd as (t1 & t2 & _ & _ & ->). rewrite Hmap in *.
      destruct (find_spec N.eq_dec (t1 ++ commit_literal ++ t2) commit_literal)
        as [[_ Hnone] | (i & _ & Hocc & Hfirst)].
      { exfalso. apply (Hnone (length t1)). exists t1, t2. auto. }
      destruct Hocc as (pre & post & Hsplit & Hi). rewrite Hsplit.
      rewrite Hl at 1. rewrite replace_nonempty_first.
      * rewrite !utf8_encode_app, Hnew.
        destruct (utf8_encode pre); [|reflexivity].
        destruct (utf8_encode commit_marker); reflexivity.
      * exact Hin.
      * rewrite <- Hl. intros k Hk.
        assert (Hlt : (k < i)%nat).
        { destruct Hk as (a & b & Hab & Hk). subst pre i k.
          rewrite !length_app.
          assert (0 < length commit_literal)%nat by (rewrite Hl; simpl; lia).
          lia. }
        apply (Hfirst k Hlt). rewrite Hsplit.
        apply occurs_at_prefix. exact Hk.
  - intros e H.
    destruct (utf8_encode _) in H; [discriminate|]. inversion H. reflexivity.
Qed.

Lemma modify_commit_object_raises_iff_witness :
  modify_commit_object commit_literal_bytes [0xD800] = Raise UnicodeEncodeError.
Proof.
  apply (proj1 (@modify_commit_object_raises_iff commit_literal_bytes [0xD800]
                  ltac:(vm_compute; discriminate))).
  split.
  - exists 0%nat, [], []. split; reflexivity.
  - vm_compute. reflexivity.
Defined.

(** X10: with the replacement text of the module's own example,
    ["GitHub <noreply@github.com>"], every payload that is valid UTF-8 is
    returned unchanged: the literal is replaced by itself. *)
Theorem modify_commit_object_example_is_identity object_data :
  utf8_decode object_data <> None ->
  modify_commit_object object_data
    (str_of_string "GitHub <noreply@github.com>") = Ok object_data.
Proof.
  intros Hvalid. rewrite modify_commit_object_unguarded.
  unfold decode_utf8.
  destruct (utf8_decode object_data) as [t|] eqn:Hd; [|congruence].
  cbn [bind]. destruct commit_literal_shape as (old' & Hl & _).
  change (commit_marker ++ str_of_string "GitHub <noreply@github.com>")
    with commit_literal.
  unfold str_replace, replace. rewrite Hl.
  rewrite replace_nonempty_same with (n := length t) by apply le_n.
  unfold encode_utf8. rewrite (utf8_decode_valid Hd). reflexivity.
Qed.

Lemma modify_commit_object_example_is_identity_witness :
  modify_commit_object Example.commit_text
    (str_of_string "GitHub <noreply@github.com>") = Ok Example.commit_text.
Proof.
  apply modify_commit_object_example_is_identity. vm_compute. discriminate.
Defined.

(** ** The chunked read and what follows from it *)

Section ChunkedRead.

Context {zlib : Zlib}.

(** X11: what [decompress_object] returns is a prefix of the unread bytes,
    the stream is left just behind it, and its length is decided by the
    chunk size, not by the compressed data: it is all that was unread, or
    a positive number of whole 8192-byte chunks. *)
Theorem decompress_object_takes_whole_chunks stream :
  exists compressed_data stream',
    decompress_object stream = (compressed_data, stream') /\
    unread stream = compressed_data ++ unread stream' /\
    getvalue stream' = getvalue stream /\
    tell stream' = (tell stream + length compressed_data)%nat /\
    (unread stream' = [] \/
     exists k, (0 < k)%nat /\
               length compressed_data = (k * chunk_size)%nat).
Proof. apply decompress_object_spec. Qed.

(** X12: with at most 8192 bytes left, [decompress_object] returns all of
    them and leaves the stream at its end, whatever they are and whatever
    the decompressor does with them. *)
Theorem decompress_object_takes_short_rest stream :
  (remaining stream <= chunk_size)%nat ->
  exists stream',
    decompress_object stream = (unread stream, stream') /\
    unread stream' = [].
Proof.
  intros H. destruct (decompress_object_short H) as (s' & H1 & H2 & _).
  eauto.
Qed.

(** The exceptions of the loop over the objects. *)
Lemma process_object_exceptions stream out new_commit_field :
  raises_only (fun e => e = TypeError \/ e = ZlibError \/
                        e = UnicodeDecodeError \/ e = UnicodeEncodeError)
    (process_object stream out new_commit_field).
Proof.
  destruct (parse_object_header stream) as [[[t sz] s1]|e] eqn:Hp.
  - rewrite (process_object_parsed _ _ Hp).
    destruct (parse_object_header_Ok Hp) as [Ht _].
    apply raises_only_bind.
    { destruct (zlib_decompress _);
        [apply raises_only_Ok | apply raises_only_Raise; auto]. }
    intros d _. apply raises_only_bind.
    { destruct (t =? 1); [|apply raises_only_Ok].
      eapply raises_only_weaken; [|apply modify_commit_object_raises].
      intros e [-> | ->]; auto. }
    intros d' _.
    destruct (write_object_header_small_type out (N.of_nat (length d')) Ht)
      as (header & ->).
    cbn [bind]. apply raises_only_Ok.
  - unfold process_object. rewrite Hp. cbn [bind].
    apply raises_only_Raise. left. apply (parse_object_header_raises Hp).
Qed.

Lemma process_objects_exceptions count : forall stream out new_commit_field,
  raises_only (fun e => e = TypeError \/ e = ZlibError \/
                        e = UnicodeDecodeError \/ e = UnicodeEncodeError)
    (process_objects count stream out new_commit_field).
Proof.
  induction count as [|count IH]; intros stream out new; simpl.
  - apply raises_only_Ok.
  - apply raises_only_bind; [apply process_object_exceptions|].
    intros [s o] _. apply IH.
Qed.

Lemma modify_push_request_exceptions binary_data new_commit_field :
  raises_only
    (fun e => e = ValueError "PACK section not found in the push request" \/
              e = StructError \/ e = TypeError \/ e = ZlibError \/
              e = UnicodeDecodeError \/ e = UnicodeEncodeError)
    (modify_push_request binary_data new_commit_field).
Proof.
  destruct (find_spec Byte.byte_eq_dec binary_data PACK)
    as [[Hf _] | (i & Hf & Hocc & _)].
  { rewrite (modify_push_request_not_found _ Hf).
    apply raises_only_Raise. auto. }
  destruct (occurs_at_split Hocc) as (post & _ & Hskip).
  unfold modify_push_request. rewrite Hf.
  replace (Z.of_nat i =? -1)%Z with false by (symmetry; apply Z.eqb_neq; lia).
  rewrite Nat2Z.id, Hskip.
  change (read 4 (BytesIO_open (PACK ++ post)))
    with (PACK, mkBytesIO (PACK ++ post) 4).
  cbn beta iota. change (negb (bytes_eqb PACK PACK)) with false. cbn iota.
  destruct (read 4 _) as [b1 s1].
  destruct (read 4 s1) as [b2 s2].
  apply raises_only_bind.
  { eapply raises_only_weaken; [|apply unpack_I_raises]. intros e ->. auto. }
  intros version _. apply raises_only_bind.
  { eapply raises_only_weaken; [|apply unpack_I_raises]. intros e ->. auto. }
  intros num _. apply raises_only_bind.
  { eapply raises_only_weaken; [|apply pack_I_raises]. intros e ->. auto. }
  intros bv _. apply raises_only_bind.
  { eapply raises_only_weaken; [|apply pack_I_raises]. intros e ->. auto. }
  intros bn _. apply raises_only_bind.
  { eapply raises_only_weaken; [|apply process_objects_exceptions].
    intros e [-> | [-> | [-> | ->]]]; auto 10. }
  intros [s o] _. apply raises_only_Ok.
Qed.

(** X13: the exceptions of the transformation of a decoded request: the
    [ValueError] of the missing marker, [struct.error], [TypeError],
    [zlib.error], [UnicodeDecodeError] and [UnicodeEncodeError], and no
    other. *)
Theorem modify_push_request_raises_only binary_data new_commit_field e :
  modify_push_request binary_data new_commit_field = Raise e ->
  e = ValueError "PACK section not found in the push request" \/
  e = StructError \/ e = TypeError \/ e = ZlibError \/
  e = UnicodeDecodeError \/ e = UnicodeEncodeError.
Proof. apply modify_push_request_exceptions. Qed.

(** X14: a request whose packfile declares two objects or more and has at
    most 8192 bytes behind its 12-byte header never gives a result: the
    first object takes the rest of the input and the second header cannot
    be read. *)
Theorem small_packfile_of_several_objects_rejected pre v3 v2 v1 v0
    n3 n2 n1 n0 rest new_commit_field num_objects :
  let header := PACK ++ [v3; v2; v1; v0] ++ [n3; n2; n1; n0] in
  find Byte.byte_eq_dec (pre ++ header ++ rest) PACK
  = Z.of_nat (length pre) ->
  unpack_I [n3; n2; n1; n0] = Ok num_objects ->
  2 <= num_objects ->
  (length rest <= chunk_size)%nat ->
  exists e,
    modify_push_request (pre ++ header ++ rest) new_commit_field = Raise e /\
    (e = TypeError \/ e = ZlibError \/
     e = UnicodeDecodeError \/ e = UnicodeEncodeError).
Proof.
  intros header Hfind Hnum Hge Hlen. subst header.
  rewrite (modify_push_request_header new_commit_field Hfind Hnum).
  destruct (N.to_nat num_objects) as [|[|count]] eqn:Hc; [lia | lia |].
  set (stream := mkBytesIO _ 12). set (out := PACK ++ _).
  assert (Hrem : (remaining stream <= chunk_size)%nat).
  { unfold remaining, unread, stream. cbn [getvalue tell].
    rewrite <- app_assoc. cbn [skipn app PACK bytes_of_string
      list_byte_of_string]. exact Hlen. }
  destruct (process_objects_short count out new_commit_field Hrem) as (e & He).
  exists e. rewrite He. split; [reflexivity|].
  apply (process_objects_exceptions He).
Qed.

End ChunkedRead.

Lemma decompress_object_takes_short_rest_witness :
  exists stream',
    decompress_object (mkBytesIO Example.commit_and_blob 14)
    = (unread (mkBytesIO Example.commit_and_blob 14), stream') /\
    unread stream' = [].
Proof.
  apply (@decompress_object_takes_short_rest Example.zlib
           (mkBytesIO Example.commit_and_blob 14)).
  apply Nat.leb_le. vm_compute. reflexivity.
Defined.

Lemma modify_push_request_raises_only_witness :
  let e := TypeError in
  e = ValueError "PACK section not found in the push request" \/
  e = StructError \/ e = TypeError \/ e = ZlibError \/
  e = UnicodeDecodeError \/ e = UnicodeEncodeError.
Proof.
  apply (@modify_push_request_raises_only Example.zlib
           Example.commit_and_blob Example.new_commit_field TypeError).
  vm_compute. reflexivity.
Defined.

Lemma small_packfile_of_several_objects_rejected_witness :
  exists e,
    modify_push_request
      (Example.flush_pkt
         ++ (PACK ++ [x00; x00; x00; x02] ++ [x00; x00; x00; x02])
         ++ skipn 12 Example.commit_and_blob)
      Example.new_commit_field = Raise e /\
    (e = TypeError \/ e = ZlibError \/
     e = UnicodeDecodeError \/ e = UnicodeEncodeError).
Proof.
  apply (@small_packfile_of_several_objects_rejected Example.zlib
           Example.flush_pkt x00 x00 x00 x02 x00 x00 x00 x02
           (skipn 12 Example.commit_and_blob) Example.new_commit_field 2).
  - vm_compute. reflexivity.
  - vm_compute. reflexivity.
  - discriminate.
  - apply Nat.leb_le. vm_compute. reflexivity.
Defined.

(** ** The base64 envelope *)

Lemma encode_ascii_Some s :
  (exists b, encode_ascii s = Some b) <-> (forall c, In c s -> c < 128).
Proof.
  unfold encode_ascii. split.
  - intros (b & H) c Hin.
    destruct (forallb (fun c => c <? 128) s) eqn:E; [|discriminate].
    rewrite forallb_forall in E. apply N.ltb_lt. exact (E c Hin).
  - intros H.
    replace (forallb (fun c => c <? 128) s) with true; [eauto|].
    symmetry. apply forallb_forall. intros c Hin. apply N.ltb_lt. auto.
Qed.

Lemma encode_ascii_None s :
  encode_ascii s = None <-> (exists c, In c s /\ 128 <= c).
Proof.
  unfold encode_ascii. split.
  - intros H. destruct (forallb (fun c => c <? 128) s) eqn:E; [discriminate|].
    clear H. induction s as [|c s IH]; [discriminate|].
    simpl in E. apply andb_false_iff in E. destruct E as [E|E].
    + exists c. split; [left; reflexivity|]. apply N.ltb_ge. exact E.
    + destruct (IH E) as (c' & Hin & Hc'). exists c'. split; [right|]; auto.
  - intros (c & Hin & Hc).
    destruct (forallb (fun c => c <? 128) s) eqn:E; [|reflexivity].
    rewrite forallb_forall in E. apply E, N.ltb_lt in Hin. lia.
Qed.

(** X15: the exceptions of [parse_and_modify_push_request] tell the
    failures of the decoding from those of the transformation. The plain
    [ValueError] of [base64.b64decode] is raised exactly when the request
    has a character that is not ASCII; [binascii.Error] exactly when the
    request is ASCII and is not valid base64; the [ValueError] of the
    missing marker exactly when the request decodes to bytes without the
    marker; and a result is the base64 encoding of the transformed
    bytes. The transformation itself raises neither of the two decoding
    errors. *)
Theorem parse_and_modify_push_request_outcome (zlib : Zlib) (base64 : Base64)
    base64_data new_commit_field :
  (parse_and_modify_push_request base64_data new_commit_field
   = Raise (ValueError "string argument should contain only ASCII characters")
   <-> exists c, In c base64_data /\ 128 <= c) /\
  (parse_and_modify_push_request base64_data new_commit_field
   = Raise BinasciiError <->
   (forall c, In c base64_data -> c < 128) /\
   a2b_base64 (map byte_of_N_mod base64_data) = None) /\
  (parse_and_modify_push_request base64_data new_commit_field
   = Raise (ValueError "PACK section not found in the push request") <->
   exists binary_data,
     (forall c, In c base64_data -> c < 128) /\
     a2b_base64 (map byte_of_N_mod base64_data) = Some binary_data /\
     forall i, ~ occurs_at PACK binary_data i) /\
  (forall s,
     parse_and_modify_push_request base64_data new_commit_field = Ok s <->
     exists binary_data out,
       (forall c, In c base64_data -> c < 128) /\
       a2b_base64 (map byte_of_N_mod base64_data) = Some binary_data /\
       modify_push_request binary_data new_commit_field = Ok out /\
       s = b64encode out).
Proof.
  unfold parse_and_modify_push_request, b64decode.
  destruct (encode_ascii base64_data) as [b|] eqn:Ha.
  - assert (Hascii : forall c, In c base64_data -> c < 128)
      by (apply encode_ascii_Some; eauto).
    assert (Hb : b = map byte_of_N_mod base64_data).
    { unfold encode_ascii in Ha.
      destruct (forallb _ base64_data); [congruence | discriminate]. }
    subst b.
    assert (Hnot : ~ exists c, In c base64_data /\ 128 <= c).
    { intros (c & Hin & Hc). apply Hascii in Hin. lia. }
    destruct (a2b_base64 (map byte_of_N_mod base64_data)) as [binary|];
      cbn [bind].
    + pose proof (@modify_push_request_exceptions zlib binary new_commit_field)
        as Hexc.
      destruct (modify_push_request binary new_commit_field) as [out|e] eqn:Hm;
        cbn [bind].
      * split; [split; [discriminate | intros H; destruct (Hnot H)]|].
        split; [split; [discriminate | intros [_ H]; discriminate]|].
        split.
        -- split; [discriminate|]. intros (b & _ & Hb & Hnone).
           inversion Hb. subst b.
           destruct (find_spec Byte.byte_eq_dec binary PACK)
             as [[Hf _] | (i & _ & Hocc & _)].
           ++ rewrite (modify_push_request_not_found _ Hf) in Hm. discriminate.
           ++ exfalso. exact (Hnone i Hocc).
        -- intros s. split.
           ++ intros H. inversion H. exists binary, out. auto.
           ++ intros (b & o & _ & Hb & Ho & ->). inversion Hb. subst b.
              rewrite Ho in Hm. inversion Hm. reflexivity.
      * split.
        { split; [|intros H; destruct (Hnot H)]. intros H. inversion H.
          subst e.
          destruct (Hexc _ eq_refl) as [H'|[H'|[H'|[H'|[H'|H']]]]];
            discriminate H'. }
        split.
        { split; [|intros [_ H]; discriminate]. intros H. inversion H.
          subst e.
          destruct (Hexc _ eq_refl) as [H'|[H'|[H'|[H'|[H'|H']]]]];
            discriminate H'. }
        split.
        -- split.
           ++ intros H. inversion H. subst e. exists binary.
              split; [exact Hascii|]. split; [reflexivity|].
              destruct (find_spec Byte.byte_eq_dec binary PACK)
                as [[_ Hnone] | (i & Hf & Hocc & _)]; [exact Hnone|].
              destruct (modify_push_request_found new_commit_field Hf Hocc)
                as [Hraise _].
              exfalso. exact (Hraise _ Hm _ eq_refl).
           ++ intros (b & _ & Hb & Hnone). inversion Hb. subst b.
              destruct (find_spec Byte.byte_eq_dec binary PACK)
                as [[Hf _] | (i & _ & Hocc & _)].
              ** rewrite (modify_push_request_not_found _ Hf) in Hm.
                 inversion Hm. reflexivity.
              ** exfalso. exact (Hnone i Hocc).
        -- intros s. split; [discriminate|].
           intros (b & o & _ & Hb & Ho & _). inversion Hb. subst b.
           rewrite Ho in Hm. discriminate.
    + split; [split; [discriminate | intros H; destruct (Hnot H)]|].
      split; [split; auto|].
      split.
      * split; [discriminate|]. intros (b & _ & Hb & _). discriminate.
      * intros s. split; [discriminate|].
        intros (b & o & _ & Hb & _). discriminate.
  - cbn [bind].
    assert (Hex : exists c, In c base64_data /\ 128 <= c)
      by (apply encode_ascii_None; exact Ha).
    assert (Hnot : ~ forall c, In c base64_data -> c < 128).
    { intros H. destruct Hex as (c & Hin & Hc). apply H in Hin. lia. }
    split; [split; auto|].
    split; [split; [discriminate | intros [H _]; destruct (Hnot H)]|].
    split.
    + split; [discriminate|]. intros (b & H & _). destruct (Hnot H).
    + intros s. split; [discriminate|].
      intros (b & o & H & _). destruct (Hnot H).
Qed.
